(** * Voice-AI pipeline: client audio utilities and turn-controller sketches

    A shallow embedding of the parts of the repository that the turn-taking
    specification talks about:

    - [Pcm], [Player]: [float32ToInt16Base64] and the [AudioPlayer] class of
      the frontend audio utilities, and the [agent_audio_chunk] handler of
      [App.tsx];
    - [Debounce]: [TurnController.on_turn_complete] (rag_plan.md);
    - [Segmenter]: [stream_sentences] and [on_token] (issue.md);
    - [Interrupt]: [TurnController.handle_interrupt] (rag_plan.md);
    - [RunLlm]: the [_run_llm] / [_run_tts] hand-off (issue.md);
    - [Integration]: the Deepgram / LLM integration rules
      (.github/copilot-instructions.md, issue.md);
    - [Controller]: the speculative-execution protocol of the turn
      controller.

    The definitions come first, one module per source; the facts about
    them follow, one module per module of definitions. *)

From Stdlib Require Import ZArith QArith Qminmax List Bool String Ascii Lia.
Import ListNotations.

Local Open Scope Z_scope.

(* ------------------------------------------------------------------ *)
(** ** PCM encoding: [float32ToInt16Base64] *)
(* ------------------------------------------------------------------ *)

Module Pcm.

(** An element of a [Float32Array], read as a JavaScript number.  Every
    finite float32 is a dyadic rational with a 24-bit significand, so the
    two products of the loop body ([s * 0x8000], a power of two, and
    [s * 0x7fff], at most 39 significant bits) are exact in double
    precision: on finite samples JavaScript arithmetic is rational
    arithmetic.  The negative zero behaves as [Finite 0] everywhere below
    ([-0 < 0] is false and [ToInt16(-0)] is [0]). *)
Inductive sample : Type :=
| Finite (q : Q)
| PosInf
| NegInf
| NaN.

(** [Math.min(a, x)] and [Math.max(a, x)] for a finite constant [a]. *)
Definition Math_min (a : Q) (x : sample) : sample :=
  match x with
  | NaN => NaN
  | PosInf => Finite a
  | NegInf => NegInf
  | Finite q => if Qle_bool a q then Finite a else Finite q
  end.

Definition Math_max (a : Q) (x : sample) : sample :=
  match x with
  | NaN => NaN
  | PosInf => PosInf
  | NegInf => Finite a
  | Finite q => if Qle_bool q a then Finite a else Finite q
  end.

(** [x < 0]; every comparison with [NaN] is false. *)
Definition lt0 (x : sample) : bool :=
  match x with
  | Finite q => negb (Qle_bool 0 q)
  | NegInf => true
  | PosInf | NaN => false
  end.

(** [x * k] for a positive integer constant [k]. *)
Definition mul_const (x : sample) (k : Z) : sample :=
  match x with
  | Finite q => Finite (q * inject_Z k)
  | other => other
  end.

(** Truncation of a rational toward zero. *)
Definition Qtrunc (q : Q) : Z := Z.quot (Qnum q) (Zpos (Qden q)).

(** Two's-complement wrap of an integer to 16 bits. *)
Definition wrap16 (n : Z) : Z :=
  let m := n mod 65536 in
  if 32768 <=? m then m - 65536 else m.

(** The store into an [Int16Array] element (ECMAScript [ToInt16]):
    non-finite values become [0], finite ones are truncated toward zero
    and wrapped modulo [2^16]. *)
Definition ToInt16 (x : sample) : Z :=
  match x with
  | Finite q => wrap16 (Qtrunc q)
  | PosInf | NegInf | NaN => 0
  end.

(** The body of the loop of [float32ToInt16Base64]:
    [const s = Math.max(-1, Math.min(1, float32Array[i]));]
    [int16Array[i] = s < 0 ? s * 0x8000 : s * 0x7fff;] *)
Definition clamp (x : sample) : sample :=
  Math_max (-1 # 1) (Math_min (1 # 1) x).

Definition encode_sample (x : sample) : Z :=
  let s := clamp x in
  ToInt16 (if lt0 s then mul_const s 32768 else mul_const s 32767).

(** The [int16Array] filled by the loop. *)
Definition int16Array (float32Array : list sample) : list Z :=
  map encode_sample float32Array.

(** [new Uint8Array(int16Array.buffer)]: the two bytes of every element,
    low byte first (typed arrays use the byte order of the platform,
    little-endian on every browser target). *)
Definition int16_bytes (v : Z) : list Z :=
  let u := v mod 65536 in [u mod 256; u / 256].

Definition Uint8Array_of (values : list Z) : list Z :=
  flat_map int16_bytes values.

(** [btoa] on the binary string of the bytes. *)
Definition base64_alphabet : list ascii :=
  list_ascii_of_string
    "ABCDEFGHIJKLMNOPQRSTUVWXYZabcdefghijklmnopqrstuvwxyz0123456789+/".

Definition base64_char (n : Z) : ascii :=
  nth (Z.to_nat n) base64_alphabet "="%char.

Fixpoint btoa (bytes : list Z) : string :=
  match bytes with
  | [] => EmptyString
  | [a] =>
      String (base64_char (a / 4))
      (String (base64_char ((a mod 4) * 16))
      (String "="%char (String "="%char EmptyString)))
  | [a; b] =>
      String (base64_char (a / 4))
      (String (base64_char ((a mod 4) * 16 + b / 16))
      (String (base64_char ((b mod 16) * 4))
      (String "="%char EmptyString)))
  | a :: b :: c :: rest =>
      String (base64_char (a / 4))
      (String (base64_char ((a mod 4) * 16 + b / 16))
      (String (base64_char ((b mod 16) * 4 + c / 64))
      (String (base64_char (c mod 64)) (btoa rest))))
  end.

Definition float32ToInt16Base64 (float32Array : list sample) : string :=
  btoa (Uint8Array_of (int16Array float32Array)).

(** The 16-bit value that two bytes of the payload stand for. *)
Definition int16_of_bytes (lo hi : Z) : Z := wrap16 (lo + 256 * hi).

(** The value the loop is meant to store, as the specification words
    it: round toward zero of [clamp(s, -1, 1)] times [0x8000] when
    negative and times [0x7fff] otherwise.  [clamp] of an infinity is
    the bound on its side; a [NaN] has no clamped value and is stored
    as [0]. *)
Definition reference_clamp (x : sample) : option Q :=
  match x with
  | Finite q => Some (Qmax (-1 # 1) (Qmin (1 # 1) q))
  | PosInf => Some (1 # 1)
  | NegInf => Some (-1 # 1)
  | NaN => None
  end.

Definition scaled_trunc (x : sample) : Z :=
  match reference_clamp x with
  | Some s =>
      if Qlt_le_dec s 0 then Qtrunc (s * 32768) else Qtrunc (s * 32767)
  | None => 0
  end.

(** The value an out-of-range sample saturates to. *)
Definition saturated (x : sample) : option Z :=
  match x with
  | PosInf => Some 32767
  | NegInf => Some (-32768)
  | NaN => None
  | Finite q =>
      if Qlt_le_dec (1 # 1) q then Some 32767
      else if Qlt_le_dec q (-1 # 1) then Some (-32768)
      else None
  end.

End Pcm.

(* ------------------------------------------------------------------ *)
(** ** Streaming playback: [AudioPlayer] and the [agent_audio_chunk] handler *)
(* ------------------------------------------------------------------ *)

Module Player.

(** A decoded chunk ([Uint8Array]): one byte per character of the binary
    string returned by [atob]. *)
Definition bytes := list ascii.

(** What a method does to the browser objects it holds, and the one
    callback it may invoke. *)
Inductive effect : Type :=
| CallOnComplete                    (* this.onComplete() *)
| ElementPause                      (* audioElement.pause(); currentTime = 0 *)
| ElementSetSrc                     (* audioElement.src = URL.createObjectURL(..) *)
| ElementPlay                       (* audioElement.play() *)
| SourceBufferAbort                 (* sourceBuffer.abort() *)
| SourceBufferAppend (b : bytes)    (* sourceBuffer.appendBuffer(..) *)
| EndOfStream.                      (* mediaSource.endOfStream() *)

(** The fields of [AudioPlayer].  [sourceBuffer] is [None] for [null] and
    [Some u] for an attached buffer whose [updating] flag is [u];
    [mediaSource] and [audioElement] say whether the field is non-null;
    [onComplete] says whether a callback is registered. *)
Record AudioPlayer : Type := mkPlayer {
  audioElement : bool;
  mediaSource : bool;
  sourceBuffer : option bool;
  queue : list bytes;
  isPlaying : bool;
  onComplete : bool;
  isFinalized : bool
}.

Definition set_queue (q : list bytes) (p : AudioPlayer) : AudioPlayer :=
  mkPlayer (audioElement p) (mediaSource p) (sourceBuffer p) q
           (isPlaying p) (onComplete p) (isFinalized p).

(** [resetStream()] *)
Definition resetStream (p : AudioPlayer) : AudioPlayer * list effect :=
  let e1 := if audioElement p then [ElementPause] else [] in
  let e2 := match sourceBuffer p with
            | Some true => [SourceBufferAbort]
            | _ => []
            end in
  let e3 := if audioElement p then [ElementSetSrc] else [] in
  (mkPlayer (audioElement p) true None [] false (onComplete p) false,
   e1 ++ e2 ++ e3).

Section Browser.

(** [atob]: the browser's base64 decoder; [None] when it throws on
    malformed input. *)
Variable atob : string -> option string.

(** Whether [sourceBuffer.appendBuffer] accepts a buffer, and whether
    [mediaSource.addSourceBuffer('audio/mpeg')] succeeds; when they
    throw, the exception is caught and logged. *)
Variable appendBuffer_ok : bytes -> bool.
Variable addSourceBuffer_ok : bool.

(** [flushQueue()]: shifts the head of the queue and hands it to the
    source buffer when one is attached and idle; an accepted
    [appendBuffer] raises the [updating] flag until the browser reports
    [updateend], a refused one loses the chunk. *)
Definition flushQueue (p : AudioPlayer) : AudioPlayer * list effect :=
  match sourceBuffer p, mediaSource p with
  | None, _ | _, false => (p, [])
  | Some true, true => (p, [])
  | Some false, true =>
      match queue p with
      | [] => (p, [])
      | next :: rest =>
          (mkPlayer (audioElement p) (mediaSource p)
                    (Some (appendBuffer_ok next)) rest
                    (isPlaying p) (onComplete p) (isFinalized p),
           [SourceBufferAppend next])
      end
  end.

(** [addChunk(base64Audio)] up to its [await]: the empty string is falsy,
    so it is refused together with a missing media source; a decoding
    error leaves the player as it was.  [isPlaying] is set later, when
    the promise of [play()] resolves ([EvPlayResolved]). *)
Definition addChunk (base64Audio : string) (p : AudioPlayer)
  : AudioPlayer * list effect :=
  if (String.eqb base64Audio "" || negb (mediaSource p))%bool then (p, [])
  else
    match atob base64Audio with
    | None => (p, [])
    | Some binaryString =>
        let pushed := set_queue (queue p ++ [list_ascii_of_string binaryString]) p in
        let '(p1, e1) := flushQueue pushed in
        let e2 := if (negb (isPlaying p1) && audioElement p1)%bool
                  then [ElementPlay] else [] in
        (p1, e1 ++ e2)
    end.

(** [finalize()] *)
Definition finalize (p : AudioPlayer) : AudioPlayer * list effect :=
  flushQueue (mkPlayer (audioElement p) (mediaSource p) (sourceBuffer p)
                       (queue p) (isPlaying p) (onComplete p) true).

(** [stop()] *)
Definition stop (p : AudioPlayer) : AudioPlayer * list effect :=
  resetStream p.

(** [setOnComplete(callback)] *)
Definition setOnComplete (p : AudioPlayer) : AudioPlayer * list effect :=
  (mkPlayer (audioElement p) (mediaSource p) (sourceBuffer p) (queue p)
            (isPlaying p) true (isFinalized p), []).

(** The listener of the audio element's ['ended'] event. *)
Definition on_ended (p : AudioPlayer) : AudioPlayer * list effect :=
  (mkPlayer (audioElement p) (mediaSource p) (sourceBuffer p) (queue p)
            false (onComplete p) (isFinalized p),
   if onComplete p then [CallOnComplete] else []).

(** The listener of the media source's ['sourceopen'] event. *)
Definition on_sourceopen (p : AudioPlayer) : AudioPlayer * list effect :=
  if (mediaSource p && addSourceBuffer_ok)%bool
  then (mkPlayer (audioElement p) true (Some false) (queue p)
                 (isPlaying p) (onComplete p) (isFinalized p), [])
  else (p, []).

(** The listener of the source buffer's ['updateend'] event; the browser
    has lowered [updating] before it runs. *)
Definition on_updateend (p : AudioPlayer) : AudioPlayer * list effect :=
  let idle := mkPlayer (audioElement p) (mediaSource p)
                       (option_map (fun _ => false) (sourceBuffer p))
                       (queue p) (isPlaying p) (onComplete p) (isFinalized p) in
  let '(p1, e1) := flushQueue idle in
  let e2 := match isFinalized p1, queue p1, sourceBuffer p1 with
            | true, [], Some false => if mediaSource p1 then [EndOfStream] else []
            | _, _, _ => []
            end in
  (p1, e1 ++ e2).

(** The continuation of [addChunk] after [await audioElement.play()]. *)
Definition on_play_resolved (p : AudioPlayer) : AudioPlayer * list effect :=
  (mkPlayer (audioElement p) (mediaSource p) (sourceBuffer p) (queue p)
            true (onComplete p) (isFinalized p), []).

(** Everything that can run on a player: its public methods and the
    listeners it installs. *)
Inductive op : Type :=
| OpResetStream
| OpAddChunk (base64Audio : string)
| OpFinalize
| OpStop
| OpSetOnComplete
| EvEnded
| EvSourceOpen
| EvUpdateEnd
| EvPlayResolved.

Definition exec (o : op) (p : AudioPlayer) : AudioPlayer * list effect :=
  match o with
  | OpResetStream => resetStream p
  | OpAddChunk a => addChunk a p
  | OpFinalize => finalize p
  | OpStop => stop p
  | OpSetOnComplete => setOnComplete p
  | EvEnded => on_ended p
  | EvSourceOpen => on_sourceopen p
  | EvUpdateEnd => on_updateend p
  | EvPlayResolved => on_play_resolved p
  end.

(** [new AudioPlayer()]: the constructor creates the audio element,
    installs the ['ended'] listener and calls [resetStream()]. *)
Definition new_AudioPlayer : AudioPlayer :=
  fst (resetStream (mkPlayer true false None [] false false false)).

(** *** [App.tsx] *)

(** The [data] of an [agent_audio_chunk] message. *)
Record AgentAudioChunk : Type := mkChunk {
  audio : string;
  chunk_index : Z;
  is_final : bool
}.

(** [obj?.method()]: nothing happens on a null reference. *)
Definition opt_call (f : AudioPlayer -> AudioPlayer * list effect)
           (r : option AudioPlayer) : option AudioPlayer * list effect :=
  match r with
  | None => (None, [])
  | Some p => let '(p', e) := f p in (Some p', e)
  end.

(** [case 'agent_audio_chunk':] of [ws.onmessage]. *)
Definition on_agent_audio_chunk (playerRef : option AudioPlayer)
           (data : AgentAudioChunk) : option AudioPlayer * list effect :=
  let '(r1, e1) :=
    if chunk_index data =? 0 then opt_call resetStream playerRef
    else (playerRef, []) in
  let '(r2, e2) :=
    if (negb (String.eqb (audio data) "") && negb (is_final data))%bool
    then opt_call (addChunk (audio data)) r1
    else (r1, []) in
  let '(r3, e3) :=
    if is_final data then opt_call finalize r2 else (r2, []) in
  (r3, e1 ++ e2 ++ e3).

(** [if (guard) player.f()], threading the player and its effects. *)
Definition then_do (f : AudioPlayer -> AudioPlayer * list effect) (guard : bool)
           (s : AudioPlayer * list effect) : AudioPlayer * list effect :=
  if guard then (fst (f (fst s)), snd s ++ snd (f (fst s))) else s.

(** The buffers that a list of effects hands to [appendBuffer]. *)
Definition appended (es : list effect) : list bytes :=
  flat_map (fun e => match e with SourceBufferAppend b => [b] | _ => [] end) es.

(** What [addChunk(base64Audio)] pushes on the queue of a player whose
    media source is present ([ms]) or not. *)
Definition pushed_by (ms : bool) (base64Audio : string) : list bytes :=
  if (String.eqb base64Audio "" || negb ms)%bool then []
  else match atob base64Audio with
       | Some binaryString => [list_ascii_of_string binaryString]
       | None => []
       end.

(** Messages the client sends over the socket. *)
Inductive ClientMessage : Type :=
| playback_complete
| interrupt.

(** [wsRef.current?.send(..)]; [ws] says whether a socket is attached. *)
Definition ws_send (ws : bool) (m : ClientMessage) : list ClientMessage :=
  if ws then [m] else [].

(** The callback registered with [setOnComplete] sends [playback_complete];
    no other effect of the player reaches the socket. *)
Definition sent_by (ws : bool) (e : effect) : list ClientMessage :=
  match e with
  | CallOnComplete => ws_send ws playback_complete
  | _ => []
  end.

Definition sent (ws : bool) (es : list effect) : list ClientMessage :=
  flat_map (sent_by ws) es.

(** [handleInterrupt]: stop the player, then send [interrupt]. *)
Definition handleInterrupt (ws : bool) (playerRef : option AudioPlayer)
  : option AudioPlayer * list ClientMessage :=
  let '(r, e) := opt_call stop playerRef in
  (r, sent ws e ++ ws_send ws interrupt).

(** The states of a turn, as the client receives them. *)
Inductive TurnState : Type := IDLE | LISTENING | SPECULATIVE | COMMITTED | SPEAKING.

(** The player part of [case 'state_change':]: a transition from
    [SPEAKING] to [LISTENING] stops playback. *)
Definition on_state_change (ws : bool) (playerRef : option AudioPlayer)
           (fromState toState : TurnState)
  : option AudioPlayer * list ClientMessage :=
  match fromState, toState with
  | SPEAKING, LISTENING =>
      let '(r, e) := opt_call stop playerRef in (r, sent ws e)
  | _, _ => (playerRef, [])
  end.

End Browser.

End Player.

(* ------------------------------------------------------------------ *)
(** ** Adaptive debounce: [TurnController.on_turn_complete] (rag_plan.md) *)
(* ------------------------------------------------------------------ *)

Module Debounce.

(** A recorded turn, as [on_turn_complete] uses it: of the columns of
    the [turns] table ([user_transcript], [agent_response],
    [state_history], [was_interrupted], ...) it reads the flag
    [was_interrupted] only. *)
Record Turn : Type := mkTurn {
  was_interrupted : bool
}.

(** The fields of [TurnController] that [__init__] sets, and the turns
    recorded so far, oldest first. *)
Record TurnController : Type := mkController {
  silence_debounce : Z;
  cancellation_threshold : Q;
  turns : list Turn
}.

Definition init : TurnController := mkController 400 (30 # 100) [].

(** [get_last_10_turns()] is not shown in the report: the last ten
    recorded turns, or all of them when there are fewer. *)
Definition get_last_10_turns (self : TurnController) : list Turn :=
  skipn (List.length (turns self) - 10)%nat (turns self).

Definition Qlt_bool (a b : Q) : bool := negb (Qle_bool b a).

(** [sum(t.was_interrupted for t in recent_turns) / 10].  The quotient
    is a double [k / 10] with [0 <= k <= 10]; against the literals
    [0.30] and [0.15] it compares as the exact rational does ([3 / 10]
    rounds to the very double that [0.30] denotes). *)
Definition cancel_rate (recent_turns : list Turn) : Q :=
  inject_Z (Z.of_nat (List.length (filter was_interrupted recent_turns))) / 10.

(** The [if] / [elif] of [on_turn_complete]. *)
Definition adjust (debounce : Z) (rate : Q) : Z :=
  if Qlt_bool (30 # 100) rate then Z.min (debounce + 100) 1200
  else if Qlt_bool rate (15 # 100) then Z.max (debounce - 50) 400
  else debounce.

Definition on_turn_complete (self : TurnController) : TurnController :=
  let recent_turns := get_last_10_turns self in
  mkController (adjust (silence_debounce self) (cancel_rate recent_turns))
               (cancellation_threshold self) (turns self).

(** *** The update and the rate as the specification words them *)

(** The update of section 4.3, to be compared with [adjust]. *)
Definition reference_update (debounce : Z) (r : Q) : Z :=
  if Qlt_bool (30 # 100) r then Z.min (debounce + 50) 1200
  else if Qlt_bool r (15 # 100) then Z.max (debounce - 25) 400
  else debounce.

(** How a turn ended, and the two attributes of the specification's
    turn that the rate and the flag are about (section 3): a barge-in
    sets [was_interrupted] and closes the turn as [interrupted]; a
    silent cancel closes it as [speculatively_canceled]. *)
Inductive Outcome : Type :=
| completed
| speculatively_canceled
| interrupted
| llm_failed
| tts_failed.

Definition Outcome_eqb (a b : Outcome) : bool :=
  match a, b with
  | completed, completed
  | speculatively_canceled, speculatively_canceled
  | interrupted, interrupted
  | llm_failed, llm_failed
  | tts_failed, tts_failed => true
  | _, _ => false
  end.

Record reference_turn : Type := mkReferenceTurn {
  outcome : Outcome;
  flag : bool                             (* was_interrupted *)
}.

(** The record of a turn that [on_turn_complete] gets to read. *)
Definition recorded (t : reference_turn) : Turn := mkTurn (flag t).

Definition is_speculatively_canceled (t : reference_turn) : bool :=
  Outcome_eqb (outcome t) speculatively_canceled.

(** [r = speculatively_canceled / max(1, total)] over the window. *)
Definition reference_rate (window : list reference_turn) : Q :=
  inject_Z (Z.of_nat (List.length (filter is_speculatively_canceled window)))
  / inject_Z (Z.max 1 (Z.of_nat (List.length window))).

(** Two full windows used below. *)

(** Ten recorded turns, four of them flagged. *)
Definition four_of_ten : list Turn :=
  [mkTurn false; mkTurn true; mkTurn false; mkTurn true; mkTurn false;
   mkTurn false; mkTurn true; mkTurn false; mkTurn true; mkTurn false].

(** Ten turns: four closed by a barge-in, six completed, none canceled
    speculatively. *)
Definition four_barge_ins : list reference_turn :=
  [mkReferenceTurn completed false; mkReferenceTurn interrupted true;
   mkReferenceTurn completed false; mkReferenceTurn interrupted true;
   mkReferenceTurn completed false; mkReferenceTurn completed false;
   mkReferenceTurn interrupted true; mkReferenceTurn completed false;
   mkReferenceTurn interrupted true; mkReferenceTurn completed false].

(** Ten turns: four canceled speculatively, six completed, no barge-in. *)
Definition four_silent_cancels : list reference_turn :=
  [mkReferenceTurn completed false; mkReferenceTurn speculatively_canceled false;
   mkReferenceTurn completed false; mkReferenceTurn speculatively_canceled false;
   mkReferenceTurn completed false; mkReferenceTurn completed false;
   mkReferenceTurn speculatively_canceled false; mkReferenceTurn completed false;
   mkReferenceTurn speculatively_canceled false; mkReferenceTurn completed false].

End Debounce.

(* ------------------------------------------------------------------ *)
(** ** Sentence boundaries: [on_token] and [stream_sentences] (issue.md) *)
(* ------------------------------------------------------------------ *)

Module Segmenter.

Local Open Scope string_scope.
Local Open Scope list_scope.

(** [p in text]: [p] occurs in [text] as a substring. *)
Fixpoint str_in (p text : string) : bool :=
  (String.prefix p text ||
   match text with
   | EmptyString => false
   | String _ rest => str_in p rest
   end)%bool.

(** [any(p in text for p in ['.', '?', '!'])] *)
Definition any_terminator (text : string) : bool :=
  existsb (fun p => str_in p text) ["."; "?"; "!"].

(** [''.join(buffer)] *)
Definition join (buffer : list string) : string := String.concat "" buffer.

(** The loop of [stream_sentences]: every token is appended to [buffer];
    when the joined buffer holds a terminator it is yielded and the
    buffer is emptied.  The result is the list of yielded sentences and
    the buffer left when the token stream ends. *)
Fixpoint stream_sentences_from (buffer tokens : list string)
  : list string * list string :=
  match tokens with
  | [] => ([], buffer)
  | token :: rest =>
      let buffer := buffer ++ [token] in
      let text := join buffer in
      if any_terminator text
      then let '(ys, b) := stream_sentences_from [] rest in (text :: ys, b)
      else stream_sentences_from buffer rest
  end.

Definition stream_sentences (tokens : list string) : list string :=
  fst (stream_sentences_from [] tokens).

(** The closure state of [_run_llm] and its [on_token] callback. *)
Record llm_state : Type := mkLlm {
  llm_buffer : list string;
  first_sentence_ready : bool
}.

Definition on_token (token : string) (st : llm_state) : llm_state :=
  let buffer := llm_buffer st ++ [token] in
  mkLlm buffer
        (if first_sentence_ready st then true
         else any_terminator (join buffer)).

(** *** The segmenter as the specification words it *)

Definition is_terminator (c : ascii) : bool :=
  (Ascii.eqb c "." || Ascii.eqb c "?" || Ascii.eqb c "!")%bool.

Definition is_space (c : ascii) : bool :=
  (Ascii.eqb c " " || Ascii.eqb c "009" || Ascii.eqb c "010" || Ascii.eqb c "013")%bool.

Definition chars (s : string) : list ascii := list_ascii_of_string s.

(** A sentence made of terminators only (the empty one included). *)
Definition only_punctuation (s : string) : bool :=
  forallb is_terminator (chars s).

Definition drop_spaces (l : list ascii) : list ascii :=
  filter (fun c => negb (is_space c)) l.

(** [strip_prefix p l]: what follows [p] at the head of [l]. *)
Fixpoint strip_prefix (p l : list ascii) : option (list ascii) :=
  match p, l with
  | [], _ => Some l
  | _ :: _, [] => None
  | a :: p', b :: l' => if Ascii.eqb a b then strip_prefix p' l' else None
  end.

Fixpoint skip_spaces (l : list ascii) : list ascii :=
  match l with
  | c :: rest => if is_space c then skip_spaces rest else l
  | [] => []
  end.

(** Every sentence of [out] is found in [input], in order, and what
    follows it there is whitespace or the end of the input. *)
Fixpoint ends_before_space (input : list ascii) (out : list string) : bool :=
  match out with
  | [] => true
  | s :: rest =>
      match strip_prefix (chars s) (skip_spaces input) with
      | None => false
      | Some after =>
          (match after with
           | [] => true
           | c :: _ => is_space c
           end && ends_before_space after rest)%bool
      end
  end.

(** Nothing but whitespace is lost between the input and the output. *)
Definition tail_flushed (input : list ascii) (out : list string) : bool :=
  if list_eq_dec Ascii.ascii_dec
       (drop_spaces (chars (join out))) (drop_spaces input)
  then true else false.

(** The three requirements of the specification on the sentences [out]
    emitted for the token stream [tokens]. *)
Definition meets_specification (tokens out : list string) : bool :=
  (ends_before_space (chars (join tokens)) out
   && tail_flushed (chars (join tokens)) out
   && forallb (fun s => negb (only_punctuation s)) out)%bool.

End Segmenter.

(* ------------------------------------------------------------------ *)
(** ** Barge-in: [TurnController.handle_interrupt] (rag_plan.md) *)
(* ------------------------------------------------------------------ *)

Module Interrupt.

Inductive TurnState : Type := IDLE | LISTENING | SPECULATIVE | COMMITTED | SPEAKING.

(** The Deepgram client, as far as the handler uses it: how many times
    [send_finish_utterance()] was awaited. *)
Record DeepgramClient : Type := mkClient {
  finish_utterance_sent : nat
}.

(** The controller fields the handler reads or writes, and the flag of
    the turn being spoken, which the handler itself neither reads nor
    writes.
    [cancel_event] is the one [asyncio.Event] that the LLM and the TTS
    streams both observe. *)
Record TurnController : Type := mkController {
  current_state : TurnState;
  cancel_event : bool;
  deepgram_client : option DeepgramClient;
  turn_was_interrupted : bool
}.

(** [self.cancel_event.set()] *)
Definition set_cancel_event (self : TurnController) : TurnController :=
  mkController (current_state self) true (deepgram_client self)
               (turn_was_interrupted self).

(** Modelled from the spec: [self.transition_to(state)] is not among
    the sources.  It stores the new state; leaving [SPEAKING] for
    [LISTENING] is the barge-in, which marks the outgoing turn
    [was_interrupted = true] (section 4.7.4). *)
Definition transition_to (s : TurnState) (self : TurnController) : TurnController :=
  mkController s (cancel_event self) (deepgram_client self)
               (match current_state self, s with
                | SPEAKING, LISTENING => true
                | _, _ => turn_was_interrupted self
                end).

(** [await self.deepgram_client.send_finish_utterance()] under
    [if self.deepgram_client:]. *)
Definition send_finish_utterance (self : TurnController) : TurnController :=
  match deepgram_client self with
  | None => self
  | Some c =>
      mkController (current_state self) (cancel_event self)
                   (Some (mkClient (S (finish_utterance_sent c))))
                   (turn_was_interrupted self)
  end.

Definition handle_interrupt (self : TurnController) : TurnController :=
  match current_state self with
  | SPEAKING =>
      send_finish_utterance (transition_to LISTENING (set_cancel_event self))
  | _ => self
  end.

(** The two cancellation signals of the specification are the two uses
    of the shared event. *)
Definition llm_cancel (self : TurnController) : bool := cancel_event self.
Definition tts_cancel (self : TurnController) : bool := cancel_event self.

(** Whether the STT utterance was forced to finalize between [before]
    and [after]. *)
Definition finalize_forced (before after : TurnController) : bool :=
  match deepgram_client before, deepgram_client after with
  | Some b, Some a => (finish_utterance_sent b <? finish_utterance_sent a)%nat
  | _, _ => false
  end.

(** What the specification asks of a barge-in that starts in [before]
    and ends in [after]. *)
Definition barge_in_done (before after : TurnController) : bool :=
  (tts_cancel after && llm_cancel after && finalize_forced before after
   && match current_state after with LISTENING => true | _ => false end
   && turn_was_interrupted after)%bool.

End Interrupt.

(* ------------------------------------------------------------------ *)
(** ** LLM to TTS hand-off: [_run_llm] and [_run_tts] (issue.md) *)
(* ------------------------------------------------------------------ *)

Module RunLlm.

Local Open Scope string_scope.
Local Open Scope list_scope.

(** What happens during [_run_llm], in order. *)
Inductive event : Type :=
| TokenArrived (token : string)   (* a token leaves the OpenAI stream *)
| LlmComplete                     (* generate_response(...) returns *)
| TtsRequest (text : string).     (* elevenlabs.generate_audio(text=...) *)

(** [OpenAIClient.generate_response]: every streamed token is added to
    [full_response] and passed to [on_token]; the response is returned
    when the stream ends.  [tokens] are the tokens streamed until the
    call ended, and [cancelled] says that it ended with [None]. *)
Fixpoint stream_tokens (tokens : list string) (full_response : string)
         (st : Segmenter.llm_state)
  : string * Segmenter.llm_state * list event :=
  match tokens with
  | [] => (full_response, st, [])
  | content :: rest =>
      let '(full, st', evs) :=
        stream_tokens rest (full_response ++ content)%string
                      (Segmenter.on_token content st) in
      (full, st', TokenArrived content :: evs)
  end.

Definition generate_response (tokens : list string) (cancelled : bool)
  : option string * Segmenter.llm_state * list event :=
  let '(full, st, evs) := stream_tokens tokens "" (Segmenter.mkLlm [] false) in
  (if cancelled then None else Some full, st, evs ++ [LlmComplete]).

(** [_run_tts]: one [generate_audio] call on [self._llm_response]. *)
Definition _run_tts (_llm_response : string) : list event :=
  [TtsRequest _llm_response].

(** [_run_llm]: await the whole response, return on [None], otherwise
    keep it as [self._llm_response] and run the TTS. *)
Definition _run_llm (tokens : list string) (cancelled : bool)
  : Segmenter.llm_state * list event :=
  let '(result, st, evs) := generate_response tokens cancelled in
  match result with
  | None => (st, evs)
  | Some full_response => (st, evs ++ _run_tts full_response)
  end.

(** The TTS requests issued before the LLM stream completed. *)
Fixpoint tts_before_complete (evs : list event) : list string :=
  match evs with
  | [] => []
  | LlmComplete :: _ => []
  | TtsRequest text :: rest => text :: tts_before_complete rest
  | TokenArrived _ :: rest => tts_before_complete rest
  end.

Definition tts_requests (evs : list event) : list string :=
  flat_map (fun e => match e with TtsRequest t => [t] | _ => [] end) evs.

End RunLlm.

(* ------------------------------------------------------------------ *)
(** ** Integration rules (.github/copilot-instructions.md, issue.md) *)
(* ------------------------------------------------------------------ *)

Module Integration.

Local Open Scope list_scope.

Inductive TurnState : Type := IDLE | LISTENING | SPECULATIVE | COMMITTED | SPEAKING.

Definition TurnState_eqb (a b : TurnState) : bool :=
  match a, b with
  | IDLE, IDLE | LISTENING, LISTENING | SPECULATIVE, SPECULATIVE
  | COMMITTED, COMMITTED | SPEAKING, SPEAKING => true
  | _, _ => false
  end.

(** What drives the controller in these rules. *)
Inductive input : Type :=
| PartialTranscript (text : string)
| FinalTranscript (text : string)
| TimerComplete                     (* the silence timer ran out, no new audio *)
| LlmSentence (sentence : string).  (* stream_sentences yields *)

Record controller : Type := mkController {
  state : TurnState;
  transcript_buffer : list string;
  silence_timer_active : bool;
  first_sentence_started : bool;
  sent_to_tts : list string
}.

(** [Deepgram -> Turn Controller]:
    partial transcripts update the UI only;
    final transcripts are added to the buffer and start the silence timer;
    on timer complete without new audio, transition LISTENING -> SPECULATIVE.
    [_run_llm] (issue.md, Option A): the first sentence transitions to
    COMMITTED, and every sentence is sent to the TTS. *)
Definition step (c : controller) (i : input) : controller :=
  match i with
  | PartialTranscript _ => c
  | FinalTranscript text =>
      mkController (state c) (transcript_buffer c ++ [text]) true
                   (first_sentence_started c) (sent_to_tts c)
  | TimerComplete =>
      mkController (if TurnState_eqb (state c) LISTENING then SPECULATIVE else state c)
                   (transcript_buffer c) false
                   (first_sentence_started c) (sent_to_tts c)
  | LlmSentence sentence =>
      mkController (if first_sentence_started c then state c else COMMITTED)
                   (transcript_buffer c) (silence_timer_active c)
                   true (sent_to_tts c ++ [sentence])
  end.

End Integration.

(* ------------------------------------------------------------------ *)
(** ** The speculative-execution protocol of the turn controller *)
(* ------------------------------------------------------------------ *)

Module Controller.

Local Open Scope string_scope.
Local Open Scope list_scope.
Local Open Scope nat_scope.

(** Modelled from the spec: the turn controller
    (backend/app/orchestration/turn_controller.py), its state machine,
    transcript buffer and silence timer are not among the sources; this
    module follows sections 4.1, 4.2 and 4.7 of the specification.  The
    adaptive debounce, telemetry, retrieval and the watchdogs emit no
    agent output and are left out. *)
Inductive TurnState : Type := IDLE | LISTENING | SPECULATIVE | COMMITTED | SPEAKING.

Inductive Outcome : Type :=
| completed
| speculatively_canceled
| interrupted
| llm_failed
| tts_failed.

(** Modelled from the spec: what reaches the controller (4.7.1).  Items of the LLM and TTS streams carry
    the index of the turn whose stream produced them. *)
Inductive event : Type :=
| AudioFrame
| Partial (text : string)
| Final (text : string)
| SilenceTimeout
| InterruptMessage
| PlaybackComplete
| LlmSentence (t : nat) (sentence : string)
| TtsChunk (t : nat) (audio : string) (is_final : bool)
| TtsFailed (t : nat).

(** Modelled from the spec: what leaves the controller (6.1, 6.4): the messages to the client (the agent
    messages tagged with the turn they belong to), the sentences handed
    to the TTS adapter, the forced STT finalization and the turn record
    written when a turn is closed. *)
Inductive output : Type :=
| state_change (from_state to_state : TurnState)
| transcript_partial (text : string)
| transcript_final (text : string)
| agent_audio_chunk (t : nat) (audio : string) (chunk_index : nat) (is_final : bool)
| agent_text_fallback (t : nat) (text : string)
| turn_complete (t : nat) (agent_text : string) (was_interrupted : bool)
| to_tts (t : nat) (sentence : string)
| stt_finalize
| turn_record (t : nat) (outcome : Outcome) (agent_text : string).

(** Modelled from the spec: the transcript buffer and its operations
    (4.2). *)
Record TranscriptBuffer : Type := mkBuffer {
  partial_text : string;
  final_segments : list string;
  locked : bool
}.

Definition set_partial (text : string) (b : TranscriptBuffer) : TranscriptBuffer :=
  if locked b then b else mkBuffer text (final_segments b) false.

Definition append_final (text : string) (b : TranscriptBuffer) : TranscriptBuffer :=
  mkBuffer "" (final_segments b ++ [text]) (locked b).

Definition lock (b : TranscriptBuffer) : TranscriptBuffer :=
  mkBuffer (partial_text b) (final_segments b) true.

Definition reset : TranscriptBuffer := mkBuffer "" [] false.

(** Modelled from the spec: the session state the controller owns (3). *)
Record controller : Type := mkController {
  state : TurnState;
  turn : nat;                   (* index of the current turn *)
  buffer : TranscriptBuffer;
  timer_running : bool;
  llm_cancel : bool;
  tts_cancel : bool;
  hold : list string;           (* sentences held during SPECULATIVE *)
  released : list string;       (* sentences released to the TTS *)
  next_chunk : nat
}.

Definition init : controller :=
  mkController IDLE 0 reset false false false [] [] 0.

Definition text_of (sentences : list string) : string :=
  String.concat " " sentences.

(** Modelled from the spec: the silent cancel (4.7.2, step 5): set the cancellation signals, drop the hold
    buffer, mark the turn [speculatively_canceled], go back to
    [LISTENING].  The transcript is kept: the user is still speaking. *)
Definition cancel_speculation (c : controller) : controller * list output :=
  (mkController LISTENING (S (turn c)) (buffer c) false true true [] [] 0,
   [turn_record (turn c) speculatively_canceled "";
    state_change SPECULATIVE LISTENING]).

(** Modelled from the spec: barge-in from [COMMITTED] or [SPEAKING] (4.7.4): set both signals, force the
    STT to finalize, go to [LISTENING], reset the transcript, close the
    turn as interrupted. *)
Definition barge_in (c : controller) : controller * list output :=
  (mkController LISTENING (S (turn c)) reset false true true [] [] 0,
   [stt_finalize;
    state_change (state c) LISTENING;
    turn_complete (turn c) (text_of (released c)) true;
    turn_record (turn c) interrupted (text_of (released c))]).

(** Modelled from the spec: [on_audio_frame] (4.7.1, 4.1). *)
Definition on_audio_frame (c : controller) : controller * list output :=
  match state c with
  | IDLE =>
      (mkController LISTENING (turn c) (buffer c) (timer_running c)
                    (llm_cancel c) (tts_cancel c) (hold c) (released c)
                    (next_chunk c),
       [state_change IDLE LISTENING])
  | LISTENING => (c, [])
  | SPECULATIVE => cancel_speculation c
  | COMMITTED | SPEAKING => barge_in c
  end.

(** Modelled from the spec: [on_interrupt_message], the explicit
    barge-in (4.7.1). *)
Definition on_interrupt_message (c : controller) : controller * list output :=
  match state c with
  | SPECULATIVE => cancel_speculation c
  | COMMITTED | SPEAKING => barge_in c
  | IDLE | LISTENING => (c, [])
  end.

Definition with_buffer (b : TranscriptBuffer) (c : controller) : controller :=
  mkController (state c) (turn c) b (timer_running c) (llm_cancel c)
               (tts_cancel c) (hold c) (released c) (next_chunk c).

(** Modelled from the spec: [on_partial] (4.7.1); a correction marker
    in the text takes the same path as any partial in [SPECULATIVE]. *)
Definition on_partial (text : string) (c : controller) : controller * list output :=
  let c1 := with_buffer (set_partial text (buffer c)) c in
  match state c with
  | SPECULATIVE =>
      let '(c2, out) := cancel_speculation c1 in
      (c2, transcript_partial text :: out)
  | _ => (c1, [transcript_partial text])
  end.

(** Modelled from the spec: [on_final] (4.7.1, 4.7.2 steps 1 and 5). *)
Definition on_final (text : string) (c : controller) : controller * list output :=
  if locked (buffer c) then (c, [])
  else
    let b := append_final text (buffer c) in
    match state c with
    | LISTENING =>
        (* start the silence timer, enter SPECULATIVE, start the
           speculative LLM with fresh cancellation signals *)
        (mkController SPECULATIVE (turn c) b true false false [] [] 0,
         [transcript_final text; state_change LISTENING SPECULATIVE])
    | SPECULATIVE =>
        let '(c2, out) := cancel_speculation (with_buffer b c) in
        (c2, transcript_final text :: out)
    | _ => (with_buffer b c, [transcript_final text])
    end.

(** Modelled from the spec: [on_silence_timeout] (4.7.1, 4.7.2 step 6):
    only a running timer fires. *)
Definition on_silence_timeout (c : controller) : controller * list output :=
  match state c, timer_running c with
  | SPECULATIVE, true =>
      (mkController COMMITTED (turn c) (lock (buffer c)) false
                    (llm_cancel c) (tts_cancel c) [] (hold c) 0,
       state_change SPECULATIVE COMMITTED :: map (to_tts (turn c)) (hold c))
  | _, _ => (c, [])
  end.

(** Modelled from the spec: a sentence of the LLM stream (4.7.2 steps 4
    and 6): held in [SPECULATIVE], forwarded once committed, dropped
    when its stream was canceled. *)
Definition on_llm_sentence (t : nat) (sentence : string) (c : controller)
  : controller * list output :=
  if (negb (Nat.eqb t (turn c)) || llm_cancel c)%bool then (c, [])
  else
    match state c with
    | SPECULATIVE =>
        (mkController SPECULATIVE (turn c) (buffer c) (timer_running c)
                      (llm_cancel c) (tts_cancel c) (hold c ++ [sentence])
                      (released c) (next_chunk c), [])
    | COMMITTED | SPEAKING =>
        (mkController (state c) (turn c) (buffer c) (timer_running c)
                      (llm_cancel c) (tts_cancel c) (hold c)
                      (released c ++ [sentence]) (next_chunk c),
         [to_tts (turn c) sentence])
    | IDLE | LISTENING => (c, [])
    end.

(** Modelled from the spec: an audio chunk of the TTS stream (4.7.3). *)
Definition on_tts_chunk (t : nat) (audio : string) (is_final : bool)
           (c : controller) : controller * list output :=
  if (negb (Nat.eqb t (turn c)) || tts_cancel c)%bool then (c, [])
  else
    match state c with
    | COMMITTED =>
        (mkController SPEAKING (turn c) (buffer c) (timer_running c)
                      (llm_cancel c) (tts_cancel c) (hold c) (released c)
                      (S (next_chunk c)),
         [agent_audio_chunk (turn c) audio (next_chunk c) is_final;
          state_change COMMITTED SPEAKING])
    | SPEAKING =>
        (mkController SPEAKING (turn c) (buffer c) (timer_running c)
                      (llm_cancel c) (tts_cancel c) (hold c) (released c)
                      (S (next_chunk c)),
         [agent_audio_chunk (turn c) audio (next_chunk c) is_final])
    | _ => (c, [])
    end.

(** Modelled from the spec: the permanent TTS failure of a turn (7). *)
Definition on_tts_failed (t : nat) (c : controller) : controller * list output :=
  if negb (Nat.eqb t (turn c)) then (c, [])
  else
    match state c with
    | COMMITTED | SPEAKING =>
        (mkController IDLE (S (turn c)) reset false true true [] [] 0,
         [agent_text_fallback (turn c) (text_of (released c));
          turn_complete (turn c) (text_of (released c)) false;
          turn_record (turn c) tts_failed (text_of (released c));
          state_change (state c) IDLE])
    | _ => (c, [])
    end.

(** Modelled from the spec: [on_playback_complete] (4.7.1). *)
Definition on_playback_complete (c : controller) : controller * list output :=
  match state c with
  | SPEAKING =>
      (mkController IDLE (S (turn c)) reset false (llm_cancel c) (tts_cancel c)
                    [] [] 0,
       [turn_complete (turn c) (text_of (released c)) false;
        turn_record (turn c) completed (text_of (released c));
        state_change SPEAKING IDLE])
  | _ => (c, [])
  end.

(** Modelled from the spec: the dispatch of one event (5: all events of
    a session are serialized). *)
Definition step (c : controller) (e : event) : controller * list output :=
  match e with
  | AudioFrame => on_audio_frame c
  | Partial text => on_partial text c
  | Final text => on_final text c
  | SilenceTimeout => on_silence_timeout c
  | InterruptMessage => on_interrupt_message c
  | PlaybackComplete => on_playback_complete c
  | LlmSentence t s => on_llm_sentence t s c
  | TtsChunk t a f => on_tts_chunk t a f c
  | TtsFailed t => on_tts_failed t c
  end.

(** A run: the controller after the events, and everything it emitted. *)
Fixpoint run (c : controller) (events : list event) : controller * list output :=
  match events with
  | [] => (c, [])
  | e :: rest =>
      let '(c1, out1) := step c e in
      let '(c2, out2) := run c1 rest in
      (c2, out1 ++ out2)
  end.

(** The turn an output surfaces agent speech or agent text for. *)
Definition surfaced (o : output) : option nat :=
  match o with
  | agent_audio_chunk t _ _ _ => Some t
  | agent_text_fallback t _ => Some t
  | turn_complete t _ _ => Some t
  | to_tts t _ => Some t
  | _ => None
  end.

(** The turn an output marks as speculatively canceled. *)
Definition canceled (o : output) : option nat :=
  match o with
  | turn_record t speculatively_canceled _ => Some t
  | _ => None
  end.

(** No agent output can exist yet for the current turn in these states. *)
Definition quiet (s : TurnState) : bool :=
  match s with
  | COMMITTED | SPEAKING => false
  | _ => true
  end.

(** Turns below this bound may have surfaced output. *)
Definition bound (c : controller) : nat :=
  if quiet (state c) then turn c else S (turn c).

(** What one step may emit, relative to the turn it started in. *)
Definition step_ok (c c' : controller) (out : list output) (o : output) : Prop :=
  (forall t, surfaced o = Some t -> t = turn c /\ t < bound c')
  /\ (forall t, canceled o = Some t ->
        t = turn c /\ quiet (state c) = true /\ turn c' = S (turn c)
        /\ Forall (fun o' => surfaced o' = None) out
        /\ o = turn_record t speculatively_canceled "").

(** The invariant of a run: agent output exists only for turns below
    the bound, and a turn marked [speculatively_canceled] is a closed
    turn with an empty agent text and no agent output. *)
Definition silent_cancels (c : controller) (outs : list output) : Prop :=
  (forall o t, In o outs -> surfaced o = Some t -> t < bound c)
  /\ (forall o t, In o outs -> canceled o = Some t ->
        t < turn c
        /\ o = turn_record t speculatively_canceled ""
        /\ forall o', In o' outs -> surfaced o' <> Some t).

(** An output that carries agent speech or agent text carries only
    what the streams of its own turn produced: a sentence handed to
    the TTS is a sentence of the LLM stream of that turn, an audio
    chunk is a chunk of its TTS stream, and an agent text is made of
    sentences of its LLM stream. *)
Definition sourced (events : list event) (o : output) : Prop :=
  match o with
  | to_tts t s => In (LlmSentence t s) events
  | agent_audio_chunk t audio _ is_final => In (TtsChunk t audio is_final) events
  | agent_text_fallback t text
  | turn_complete t text _
  | turn_record t _ text =>
      exists sentences,
        text = text_of sentences
        /\ Forall (fun s => In (LlmSentence t s) events) sentences
  | _ => True
  end.

(** The sentences the controller keeps, held or released, are
    sentences of the LLM stream of the current turn. *)
Definition own_sentences (events : list event) (c : controller) : Prop :=
  Forall (fun s => In (LlmSentence (turn c) s) events) (hold c ++ released c).


End Controller.

(* ------------------------------------------------------------------ *)
(** ** Sequences of player operations *)
(* ------------------------------------------------------------------ *)

Module PlayerRun.
Import Player.

Section Browser.

Variable atob : string -> option string.
Variable appendBuffer_ok : bytes -> bool.
Variable addSourceBuffer_ok : bool.

(** The methods and listeners of a player, run one after the other. *)
Fixpoint run (ops : list op) (p : AudioPlayer) : AudioPlayer * list effect :=
  match ops with
  | [] => (p, [])
  | o :: rest =>
      let '(p1, e1) := exec atob appendBuffer_ok addSourceBuffer_ok o p in
      let '(p2, e2) := run rest p1 in
      (p2, e1 ++ e2)
  end.

(** The operations that start a new stream. *)
Definition is_reset (o : op) : bool :=
  match o with
  | OpResetStream | OpStop => true
  | _ => false
  end.

Definition is_setOnComplete (o : op) : bool :=
  match o with
  | OpSetOnComplete => true
  | _ => false
  end.

(** The chunk an operation pushes on the queue. *)
Definition pushes (ms : bool) (o : op) : list bytes :=
  match o with
  | OpAddChunk a => pushed_by atob ms a
  | _ => []
  end.

(** [flushQueue] hands a chunk to the source buffer only when the media
    source is present and the buffer is attached and not updating. *)
Definition can_append (p : AudioPlayer) : bool :=
  match sourceBuffer p, mediaSource p with
  | Some false, true => true
  | _, _ => false
  end.

(** The listeners that make the source buffer available again. *)
Definition wakes (o : op) : bool :=
  match o with
  | EvUpdateEnd | EvSourceOpen => true
  | _ => false
  end.

(** The calls of [mediaSource.endOfStream()] among effects. *)
Definition ends_stream (es : list effect) : bool :=
  existsb (fun e => match e with EndOfStream => true | _ => false end) es.

End Browser.

End PlayerRun.

(* ------------------------------------------------------------------ *)
(** ** The application shell ([Frontend 2.0/src/App.tsx]) *)
(* ------------------------------------------------------------------ *)

Module App.
Import Player.

Local Open Scope string_scope.
Local Open Scope list_scope.

Inductive Role : Type := user | agent.

Definition Role_eqb (a b : Role) : bool :=
  match a, b with
  | user, user | agent, agent => true
  | _, _ => false
  end.

(** A message of the conversation.  [id] is the number whose decimal
    string [Date.now().toString()] produces. *)
Record ConversationMessage : Type := mkMessage {
  id : Z;
  role : Role;
  text : string;
  timestamp : Z
}.

(** An entry of [debugLogs]. *)
Record DebugLog : Type := mkLog {
  log_timestamp : Z;
  log_type : string;
  content : string
}.

(** The messages of the server ([ServerMessage]) with the fields the
    handler reads. *)
Inductive ServerMessage : Type :=
| session_ready (session_id : string)
| state_change (from_state to_state : TurnState)
| transcript_partial (text : string)
| transcript_final (text : string)
| agent_audio_chunk (data : AgentAudioChunk)
| agent_text_fallback (text reason : string)
| turn_complete (agent_text : string)
| telemetry
| error_message (message : string)
| ping.

(** A message together with the clock of the moment it is handled:
    [Date_now k] is the value of the [k]-th reading of the clock. *)
Record Delivery : Type := mkDelivery {
  message : ServerMessage;
  Date_now : nat -> Z
}.

(** What the handler shows or does outside the component's state. *)
Inductive AppEffect : Type :=
| PlayerEffect (e : effect)
| Toast (variant title description : string).

(** The state and refs of [App] that [ws.onmessage] reads or writes. *)
Record App : Type := mkApp {
  currentState : TurnState;
  sessionId : string;
  conversationHistory : list ConversationMessage;
  partialTranscript : string;
  lastAgentMessageRef : string;
  lastUserMessageRef : string;
  error : string;
  debugLogs : list DebugLog;
  playerRef : option AudioPlayer
}.

(** The state of a freshly mounted component. *)
Definition initial (player : option AudioPlayer) : App :=
  mkApp IDLE "" [] "" "" "" "" [] player.

Definition setCurrentState (s : TurnState) (a : App) : App :=
  mkApp s (sessionId a) (conversationHistory a) (partialTranscript a)
        (lastAgentMessageRef a) (lastUserMessageRef a) (error a) (debugLogs a)
        (playerRef a).

Definition setSessionId (s : string) (a : App) : App :=
  mkApp (currentState a) s (conversationHistory a) (partialTranscript a)
        (lastAgentMessageRef a) (lastUserMessageRef a) (error a) (debugLogs a)
        (playerRef a).

Definition setConversationHistory
           (f : list ConversationMessage -> list ConversationMessage) (a : App)
  : App :=
  mkApp (currentState a) (sessionId a) (f (conversationHistory a))
        (partialTranscript a) (lastAgentMessageRef a) (lastUserMessageRef a)
        (error a) (debugLogs a) (playerRef a).

Definition setPartialTranscript (s : string) (a : App) : App :=
  mkApp (currentState a) (sessionId a) (conversationHistory a) s
        (lastAgentMessageRef a) (lastUserMessageRef a) (error a) (debugLogs a)
        (playerRef a).

Definition set_lastAgentMessageRef (s : string) (a : App) : App :=
  mkApp (currentState a) (sessionId a) (conversationHistory a)
        (partialTranscript a) s (lastUserMessageRef a) (error a) (debugLogs a)
        (playerRef a).

Definition set_lastUserMessageRef (s : string) (a : App) : App :=
  mkApp (currentState a) (sessionId a) (conversationHistory a)
        (partialTranscript a) (lastAgentMessageRef a) s (error a) (debugLogs a)
        (playerRef a).

Definition setError (s : string) (a : App) : App :=
  mkApp (currentState a) (sessionId a) (conversationHistory a)
        (partialTranscript a) (lastAgentMessageRef a) (lastUserMessageRef a) s
        (debugLogs a) (playerRef a).

Definition set_playerRef (r : option AudioPlayer) (a : App) : App :=
  mkApp (currentState a) (sessionId a) (conversationHistory a)
        (partialTranscript a) (lastAgentMessageRef a) (lastUserMessageRef a)
        (error a) (debugLogs a) r.

(** [addDebugLog(type, content)] *)
Definition addDebugLog (now : Z) (type content : string) (a : App) : App :=
  mkApp (currentState a) (sessionId a) (conversationHistory a)
        (partialTranscript a) (lastAgentMessageRef a) (lastUserMessageRef a)
        (error a) (debugLogs a ++ [mkLog now type content]) (playerRef a).

(** A state as the template literal prints it. *)
Definition state_name (s : TurnState) : string :=
  match s with
  | IDLE => "IDLE"
  | LISTENING => "LISTENING"
  | SPECULATIVE => "SPECULATIVE"
  | COMMITTED => "COMMITTED"
  | SPEAKING => "SPEAKING"
  end.

Section Browser.

Variable atob : string -> option string.
Variable appendBuffer_ok : bytes -> bool.

(** [ws.onmessage]: the [switch] over [message.type]. *)
Definition onmessage (d : Delivery) (a : App) : App * list AppEffect :=
  match message d with
  | session_ready sid => (setSessionId sid a, [])
  | state_change fromState toState =>
      let a1 := setCurrentState toState a in
      let a2 := addDebugLog (Date_now d 0) "state"
                  ("State: " ++ state_name fromState ++ " → "
                   ++ state_name toState) a1 in
      let '(r, e) :=
        match fromState, toState with
        | SPEAKING, LISTENING => opt_call stop (playerRef a2)
        | _, _ => (playerRef a2, [])
        end in
      let a3 := set_playerRef r a2 in
      let a4 :=
        match fromState, toState with
        | IDLE, LISTENING => setPartialTranscript "" a3
        | _, _ => a3
        end in
      (a4, map PlayerEffect e)
  | transcript_partial t =>
      (addDebugLog (Date_now d 0) "partial" t (setPartialTranscript t a), [])
  | transcript_final finalText =>
      let a1 := setPartialTranscript "" a in
      if negb (String.eqb finalText (lastUserMessageRef a1)) then
        let a2 := set_lastUserMessageRef finalText a1 in
        let userMsg := mkMessage (Date_now d 0) user finalText (Date_now d 1) in
        let a3 := setConversationHistory (fun prev => prev ++ [userMsg]) a2 in
        (addDebugLog (Date_now d 2) "final" ("[FINAL] " ++ finalText) a3, [])
      else
        (addDebugLog (Date_now d 0) "final" ("[FINAL] " ++ finalText) a1, [])
  | agent_audio_chunk data =>
      let '(r, e) := on_agent_audio_chunk atob appendBuffer_ok (playerRef a) data in
      (set_playerRef r a, map PlayerEffect e)
  | agent_text_fallback t reason =>
      let a1 := setError ("TTS failed: " ++ reason) a in
      if negb (String.eqb t (lastAgentMessageRef a1)) then
        let a2 := set_lastAgentMessageRef t a1 in
        let fallbackMsg := mkMessage (Date_now d 0) agent t (Date_now d 1) in
        let a3 := setConversationHistory (fun prev => prev ++ [fallbackMsg]) a2 in
        (addDebugLog (Date_now d 2) "agent" ("[FALLBACK] " ++ t) a3, [])
      else
        (addDebugLog (Date_now d 0) "agent" ("[FALLBACK] " ++ t) a1, [])
  | turn_complete agent_text =>
      if negb (String.eqb agent_text (lastAgentMessageRef a)) then
        let a1 := set_lastAgentMessageRef agent_text a in
        let agentMsg := mkMessage (Date_now d 0) agent agent_text (Date_now d 1) in
        let a2 := setConversationHistory (fun prev => prev ++ [agentMsg]) a1 in
        (addDebugLog (Date_now d 2) "agent" ("[AGENT] " ++ agent_text) a2, [])
      else (a, [])
  | error_message m =>
      (setError m a, [Toast "destructive" "Error" m])
  | telemetry | ping => (a, [])
  end.

(** The messages of a connection, handled in the order they arrive. *)
Fixpoint deliver (ds : list Delivery) (a : App) : App * list AppEffect :=
  match ds with
  | [] => (a, [])
  | d :: rest =>
      let '(a1, e1) := onmessage d a in
      let '(a2, e2) := deliver rest a1 in
      (a2, e1 ++ e2)
  end.

End Browser.

(** The texts of the messages of one role, oldest first. *)
Definition texts_of (r : Role) (h : list ConversationMessage) : list string :=
  map text (filter (fun m => Role_eqb (role m) r) h).

(** No element of the list equals its successor. *)
Fixpoint adjacent_distinct (l : list string) : bool :=
  match l with
  | a :: (b :: _) as tl => negb (String.eqb a b) && adjacent_distinct tl
  | _ => true
  end.

(** What the handler keeps true of the history and of the two refs. *)
Definition deduplicated (a : App) : Prop :=
  adjacent_distinct ("" :: texts_of user (conversationHistory a)) = true
  /\ adjacent_distinct ("" :: texts_of agent (conversationHistory a)) = true
  /\ lastUserMessageRef a = last (texts_of user (conversationHistory a)) ""
  /\ lastAgentMessageRef a = last (texts_of agent (conversationHistory a)) "".

(** [messageCount], [isBallFloating] and [getContainerHeight()]. *)
Definition messageCount (a : App) : nat := List.length (conversationHistory a).

Definition isBallFloating (a : App) : bool := (4 <=? messageCount a)%nat.

Definition getContainerHeight (a : App) : string :=
  if (messageCount a =? 0)%nat then "flex-1 p-8"
  else if (messageCount a =? 1)%nat then "h-80 p-8"
  else if (messageCount a =? 2)%nat then "h-56 p-6"
  else if (messageCount a =? 3)%nat then "h-32 p-4"
  else "h-0 p-0".

(** *** The status line and the start button *)

Inductive ConnectionStatus : Type :=
| disconnected | connecting | connected | reconnecting.

Record Document : Type := mkDocument {
  doc_id : string;
  filename : string;
  status : string
}.

Definition is_connected (c : ConnectionStatus) : bool :=
  match c with connected => true | _ => false end.

Definition is_connecting (c : ConnectionStatus) : bool :=
  match c with connecting => true | _ => false end.

(** [documents.some(d => d.status === 'indexed')] *)
Definition hasProcessedDoc (documents : list Document) : bool :=
  existsb (fun d => String.eqb (status d) "indexed") documents.

(** The text of the [switch (currentState)] of [getStatusText]; the
    second one is [Ready - Click "Start Speaking"]. *)
Definition quote : string := String "034"%char "".

Definition state_text (s : TurnState) : string :=
  match s with
  | IDLE => "Ready - Click " ++ quote ++ "Start Speaking" ++ quote
  | LISTENING => "Listening..."
  | SPECULATIVE => "Processing..."
  | COMMITTED => "Generating response..."
  | SPEAKING => "Speaking..."
  end.

(** [getStatusText()] *)
Definition getStatusText (connectionStatus : ConnectionStatus)
           (documents : list Document) (s : TurnState) : string :=
  if is_connecting connectionStatus then "Connecting to voice pipeline..."
  else if (List.length documents =? 0)%nat then "Upload a document to get started"
  else if negb (hasProcessedDoc documents) then "Processing document..."
  else state_text s.

(** The [disabled] attribute of the start button. *)
Definition start_disabled (connectionStatus : ConnectionStatus)
           (documents : list Document) : bool :=
  (negb (is_connected connectionStatus)
   || (List.length documents =? 0)%nat
   || negb (hasProcessedDoc documents))%bool.

End App.

(* ------------------------------------------------------------------ *)
(** ** Microphone capture ([AudioRecorder] of [audioUtils.ts]) *)
(* ------------------------------------------------------------------ *)

Module Recorder.

(** What the recorder does to the browser objects it holds, the callback
    it invokes and the promise of [start] it rejects. *)
Inductive effect : Type :=
| ConsoleWarn                         (* console.warn('Already recording') *)
| GetUserMedia                        (* navigator.mediaDevices.getUserMedia(..) *)
| Throw                               (* console.error(..); throw error *)
| ProcessorDisconnect                 (* processor.disconnect() *)
| SourceDisconnect                    (* source.disconnect() *)
| TracksStop                          (* mediaStream.getTracks().forEach(stop) *)
| ContextClose                        (* audioContext.close() *)
| CallOnAudioData (callback : nat) (inputData : list Pcm.sample).

(** The fields of [AudioRecorder]: [true] for a field that is not
    [null]; [onAudioData] names the registered callback. *)
Record AudioRecorder : Type := mkRecorder {
  mediaStream : bool;
  audioContext : bool;
  processor : bool;
  source : bool;
  isRecording : bool;
  onAudioData : option nat
}.

(** [new AudioRecorder()] *)
Definition new_AudioRecorder : AudioRecorder :=
  mkRecorder false false false false false None.

(** How the body of the [try] block ends: with the statement that
    throws, or with [isRecording = true]. *)
Inductive outcome : Type :=
| getUserMedia_rejects
| AudioContext_throws
| createMediaStreamSource_throws
| createScriptProcessor_throws
| connect_throws
| recording_started.

(** [start(onAudioData)] up to its [await]. *)
Definition start (callback : nat) (r : AudioRecorder)
  : AudioRecorder * list effect :=
  if isRecording r then (r, [ConsoleWarn])
  else (mkRecorder (mediaStream r) (audioContext r) (processor r) (source r)
                   (isRecording r) (Some callback),
        [GetUserMedia]).

(** [start] after the promise of [getUserMedia] has settled: the fields
    are assigned one by one until a statement throws; the [catch] block
    rethrows and releases nothing. *)
Definition start_resumed (o : outcome) (r : AudioRecorder)
  : AudioRecorder * list effect :=
  match o with
  | getUserMedia_rejects => (r, [Throw])
  | AudioContext_throws =>
      (mkRecorder true (audioContext r) (processor r) (source r)
                  (isRecording r) (onAudioData r), [Throw])
  | createMediaStreamSource_throws =>
      (mkRecorder true true (processor r) (source r)
                  (isRecording r) (onAudioData r), [Throw])
  | createScriptProcessor_throws =>
      (mkRecorder true true (processor r) true
                  (isRecording r) (onAudioData r), [Throw])
  | connect_throws =>
      (mkRecorder true true true true (isRecording r) (onAudioData r), [Throw])
  | recording_started =>
      (mkRecorder true true true true true (onAudioData r), [])
  end.

(** [processor.onaudioprocess] *)
Definition onaudioprocess (inputData : list Pcm.sample) (r : AudioRecorder)
  : AudioRecorder * list effect :=
  if negb (isRecording r) then (r, [])
  else match onAudioData r with
       | Some callback => (r, [CallOnAudioData callback inputData])
       | None => (r, [])
       end.

(** [stop()] *)
Definition stop (r : AudioRecorder) : AudioRecorder * list effect :=
  if negb (isRecording r) then (r, [])
  else
    (mkRecorder false false false false false (onAudioData r),
     (if processor r then [ProcessorDisconnect] else [])
     ++ (if source r then [SourceDisconnect] else [])
     ++ (if mediaStream r then [TracksStop] else [])
     ++ (if audioContext r then [ContextClose] else [])).

(** [getIsRecording()] *)
Definition getIsRecording (r : AudioRecorder) : bool := isRecording r.

(** Everything that can run on a recorder. *)
Inductive op : Type :=
| OpStart (callback : nat)
| EvSettled (o : outcome)
| EvAudioProcess (inputData : list Pcm.sample)
| OpStop.

Definition exec (o : op) (r : AudioRecorder) : AudioRecorder * list effect :=
  match o with
  | OpStart callback => start callback r
  | EvSettled out => start_resumed out r
  | EvAudioProcess inputData => onaudioprocess inputData r
  | OpStop => stop r
  end.

Fixpoint run (ops : list op) (r : AudioRecorder) : AudioRecorder * list effect :=
  match ops with
  | [] => (r, [])
  | o :: rest =>
      let '(r1, e1) := exec o r in
      let '(r2, e2) := run rest r1 in
      (r2, e1 ++ e2)
  end.

(** The buffers handed to the callback. *)
Definition delivered (es : list effect) : list (list Pcm.sample) :=
  flat_map (fun e => match e with
                     | CallOnAudioData _ inputData => [inputData]
                     | _ => []
                     end) es.

Definition is_started (o : op) : bool :=
  match o with
  | EvSettled recording_started => true
  | _ => false
  end.

Definition is_stop (o : op) : bool :=
  match o with
  | OpStop => true
  | _ => false
  end.

(** A [start] that got the microphone and then threw. *)
Definition fails_after_grant (o : outcome) : bool :=
  match o with
  | getUserMedia_rejects | recording_started => false
  | _ => true
  end.

(** Whether the tracks of the media stream are stopped. *)
Definition stops_tracks (es : list effect) : bool :=
  existsb (fun e => match e with TracksStop => true | _ => false end) es.

(** A recorder that records holds every resource. *)
Definition equipped (r : AudioRecorder) : Prop :=
  isRecording r = true ->
  mediaStream r = true /\ audioContext r = true /\ processor r = true
  /\ source r = true.

End Recorder.

(* ------------------------------------------------------------------ *)
(** ** The byte view of the PCM buffer *)
(* ------------------------------------------------------------------ *)

Module PcmView.
Import Pcm.

(** [new Int16Array(bytes.buffer)]: the 16-bit elements that a buffer of
    little-endian byte pairs holds; a trailing odd byte belongs to no
    element. *)
Fixpoint Int16Array_of (bytes : list Z) : list Z :=
  match bytes with
  | lo :: hi :: rest => int16_of_bytes lo hi :: Int16Array_of rest
  | _ => []
  end.

End PcmView.

(* ------------------------------------------------------------------ *)
(** ** [handle_interrupt] before the fix (rag_plan.md, "The Bug") *)
(* ------------------------------------------------------------------ *)

Module InterruptBug.
Import Interrupt.

Definition handle_interrupt (self : TurnController) : TurnController :=
  match current_state self with
  | SPEAKING => transition_to LISTENING (set_cancel_event self)
  | _ => self
  end.

End InterruptBug.

(* ------------------------------------------------------------------ *)
(** ** The debug panel ([components/DebugPanel.tsx]) *)
(* ------------------------------------------------------------------ *)

Module DebugPanel.

(** [logs.slice(-50)] *)
Definition slice_last_50 {A : Type} (logs : list A) : list A :=
  skipn (List.length logs - 50)%nat logs.

(** [logs.slice(-50).reverse()]: the entries the panel lists, top first. *)
Definition shown {A : Type} (logs : list A) : list A :=
  rev (slice_last_50 logs).

End DebugPanel.

(* ------------------------------------------------------------------ *)
(** ** Document upload ([components/DocumentSidebar.tsx],
       [frontend/src/DocumentUpload.tsx]) *)
(* ------------------------------------------------------------------ *)

Module Upload.

Local Open Scope string_scope.
Local Open Scope list_scope.

(** [s.lastIndexOf(c)]: the index of the last occurrence of the
    character, [-1] when there is none. *)
Fixpoint lastIndexOf (c : ascii) (s : string) : Z :=
  match s with
  | EmptyString => -1
  | String x rest =>
      let r := lastIndexOf c rest in
      if (0 <=? r)%Z then r + 1 else if Ascii.eqb x c then 0 else -1
  end.

Fixpoint drop (n : nat) (s : string) : string :=
  match n, s with
  | O, _ => s
  | S n', String _ rest => drop n' rest
  | S _, EmptyString => EmptyString
  end.

(** [s.substring(start)]: a negative [start] counts as [0]. *)
Definition substring (start : Z) (s : string) : string :=
  drop (Z.to_nat start) s.

(** [s.toLowerCase()].  Only the letters [A] to [Z] are mapped; the
    characters outside ASCII that JavaScript would also map never
    become one of the letters of [pdf], [txt] or [md], so the test
    below is not affected. *)
Definition lower_ascii (c : ascii) : ascii :=
  let n := nat_of_ascii c in
  if ((65 <=? n) && (n <=? 90))%nat then ascii_of_nat (n + 32) else c.

Fixpoint toLowerCase (s : string) : string :=
  match s with
  | EmptyString => EmptyString
  | String c rest => String (lower_ascii c) (toLowerCase rest)
  end.

Definition validExtensions : list string := [".pdf"; ".txt"; ".md"].

(** [file.name.substring(file.name.lastIndexOf('.')).toLowerCase()] *)
Definition extension (name : string) : string :=
  toLowerCase (substring (lastIndexOf "." name) name).

(** [list.includes(s)] *)
Definition includes (l : list string) (s : string) : bool :=
  existsb (String.eqb s) l.

(** The two validations that both components run on a chosen file:
    the error reported, or [None] when the file is accepted. *)
Definition validate (name : string) (size : Z) : option string :=
  if negb (includes validExtensions (extension name))
  then Some "Unsupported file format. Please upload PDF, TXT, or MD files."
  else if (10 * 1024 * 1024 <? size)%Z
  then Some "File too large. Maximum size is 10MB."
  else None.

(** [handleFileSelect(file)] of the sidebar, up to the start of the
    upload: the calls of [onError] and whether the upload starts.
    [connectionStatus] and [sessionId] are the props of the render
    that created the handler; [waitForConnection] polls that same
    [sessionId], so with an empty one it ends by its timeout. *)
Definition handleFileSelect (connectionStatus : App.ConnectionStatus)
           (sessionId name : string) (size : Z) : list string * bool :=
  let waited :=
    if (App.is_connecting connectionStatus && String.eqb sessionId "")%bool
    then ["Connection timeout. Please try again."] else [] in
  if String.eqb sessionId "" then
    (waited ++ ["Connection failed. Please refresh the page."], false)
  else
    match validate name size with
    | Some message => (waited ++ [message], false)
    | None => (waited, true)
    end.

(** Whether a character occurs in a string. *)
Fixpoint has_char (c : ascii) (s : string) : bool :=
  match s with
  | EmptyString => false
  | String x rest => (Ascii.eqb x c || has_char c rest)%bool
  end.

End Upload.

(* ------------------------------------------------------------------ *)
(** ** The sentence-level [_run_llm] (issue.md, Option A) *)
(* ------------------------------------------------------------------ *)

Module RunLlmStreaming.

Local Open Scope list_scope.

(** [async for sentence in self.openai.stream_sentences(...)]: the
    first sentence moves the controller to COMMITTED, and every
    sentence is sent to the TTS.  The body of the loop is
    [Integration.step] on [LlmSentence]. *)
Definition _run_llm (tokens : list string) (c : Integration.controller)
  : Integration.controller :=
  fold_left Integration.step
            (map Integration.LlmSentence (Segmenter.stream_sentences tokens)) c.

End RunLlmStreaming.

(* ================================================================== *)
(** * Facts *)
(* ================================================================== *)

Module PcmFacts.
Import Pcm.

Lemma wrap16_small (n : Z) : -32768 <= n <= 32767 -> wrap16 n = n.
Proof.
  intros Hn. unfold wrap16.
  destruct (Z_lt_le_dec n 0) as [Hneg | Hpos].
  - replace (n mod 65536) with (n + 65536).
    + destruct (32768 <=? n + 65536) eqn:E; [lia | apply Z.leb_gt in E; lia].
    + apply Z.mod_unique with (q := -1); lia.
  - rewrite Z.mod_small by lia.
    destruct (32768 <=? n) eqn:E; [apply Z.leb_le in E; lia | reflexivity].
Qed.

Lemma Qtrunc_scale (q : Q) (k : Z) :
  Qtrunc (q * inject_Z k) = Z.quot (Qnum q * k) (Zpos (Qden q)).
Proof.
  unfold Qtrunc, Qmult, inject_Z. simpl. now rewrite Pos.mul_1_r.
Qed.

Lemma quot_scale_nonneg (n k : Z) (d : positive) :
  0 <= n <= Zpos d -> 0 <= k -> 0 <= Z.quot (n * k) (Zpos d) <= k.
Proof.
  intros Hn Hk. split.
  - apply Z.quot_pos; nia.
  - apply Z.quot_le_upper_bound; nia.
Qed.

Lemma quot_scale_neg (n k : Z) (d : positive) :
  - Zpos d <= n <= 0 -> 0 <= k -> - k <= Z.quot (n * k) (Zpos d) <= 0.
Proof.
  intros Hn Hk.
  replace (n * k) with (- ((- n) * k)) by ring.
  rewrite Z.quot_opp_l by lia.
  pose proof (quot_scale_nonneg (- n) k d). lia.
Qed.

Lemma clamp_finite (q : Q) :
  clamp (Finite q) = Finite (Qmax (-1 # 1) (Qmin (1 # 1) q)).
Proof.
  unfold clamp, Math_min, Math_max, Qmax, Qmin, GenericMinMax.gmax, GenericMinMax.gmin.
  destruct (Qle_bool 1 q) eqn:E1.
  - apply Qle_bool_iff in E1.
    destruct (Qcompare_spec 1 q) as [H | H | H].
    + reflexivity.
    + reflexivity.
    + exfalso. apply (Qlt_not_le _ _ H E1).
  - assert (H1 : ~ (1 <= q)%Q) by (rewrite <- Qle_bool_iff; congruence).
    apply Qnot_le_lt in H1.
    destruct (Qcompare_spec 1 q) as [H | H | H].
    + rewrite H in H1. exfalso. apply (Qlt_irrefl _ H1).
    + exfalso. apply (Qlt_irrefl q). now apply Qlt_trans with 1%Q.
    + destruct (Qle_bool q (-1 # 1)) eqn:E2.
      * apply Qle_bool_iff in E2.
        destruct (Qcompare_spec (-1 # 1) q) as [H' | H' | H']; try reflexivity.
        exfalso. apply (Qlt_not_le _ _ H' E2).
      * assert (H2 : ~ (q <= -1 # 1)%Q) by (rewrite <- Qle_bool_iff; congruence).
        apply Qnot_le_lt in H2.
        destruct (Qcompare_spec (-1 # 1) q) as [H' | H' | H'].
        -- rewrite <- H' in H2. exfalso. apply (Qlt_irrefl _ H2).
        -- reflexivity.
        -- exfalso. apply (Qlt_irrefl q). now apply Qlt_trans with (-1 # 1)%Q.
Qed.

Lemma reference_clamp_bounds (x : sample) (s : Q) :
  reference_clamp x = Some s -> (-1 # 1 <= s)%Q /\ (s <= 1 # 1)%Q.
Proof.
  destruct x as [q | | |]; simpl; intros H; inversion H; subst; clear H.
  - split.
    + apply Q.le_max_l.
    + apply Q.max_lub; [discriminate | apply Q.le_min_l].
  - split; discriminate.
  - split; discriminate.
Qed.

Lemma clamp_reference (x : sample) :
  clamp x = match reference_clamp x with Some s => Finite s | None => NaN end.
Proof.
  destruct x as [q | | |]; try reflexivity.
  apply clamp_finite.
Qed.

Lemma scaled_in_range (s : Q) :
  (-1 # 1 <= s)%Q -> (s <= 1 # 1)%Q ->
  -32768 <= (if Qlt_le_dec s 0 then Qtrunc (s * 32768) else Qtrunc (s * 32767)) <= 32767
  /\ ((1 # 1 <= s)%Q ->
      (if Qlt_le_dec s 0 then Qtrunc (s * 32768) else Qtrunc (s * 32767)) = 32767)
  /\ ((s <= -1 # 1)%Q ->
      (if Qlt_le_dec s 0 then Qtrunc (s * 32768) else Qtrunc (s * 32767)) = -32768).
Proof.
  intros Hlo Hhi.
  change 32768%Q with (inject_Z 32768). change 32767%Q with (inject_Z 32767).
  rewrite !Qtrunc_scale.
  destruct s as [n d]. unfold Qle, Qlt in *. simpl in *.
  destruct (Qlt_le_dec (n # d) 0) as [Hneg | Hpos]; unfold Qlt, Qle in *; simpl in *.
  - pose proof (quot_scale_neg n 32768 d). repeat split; try lia.
    intros H1. assert (n = - Zpos d) by lia. subst n.
    replace (- Z.pos d * 32768) with (-32768 * Z.pos d) by ring.
    apply Z.quot_mul; lia.
  - pose proof (quot_scale_nonneg n 32767 d). repeat split; try lia.
    intros H1. assert (n = Zpos d) by lia. subst n.
    replace (Z.pos d * 32767) with (32767 * Z.pos d) by ring.
    apply Z.quot_mul; lia.
Qed.

Lemma encode_sample_saturates (x : sample) :
  encode_sample x = scaled_trunc x
  /\ -32768 <= encode_sample x <= 32767
  /\ match saturated x with
     | Some v => encode_sample x = v
     | None => True
     end.
Proof.
  assert (Hcore : forall r, reference_clamp x = Some r ->
            encode_sample x
            = (if Qlt_le_dec r 0 then Qtrunc (r * 32768) else Qtrunc (r * 32767))).
  { intros r Hr. unfold encode_sample. rewrite clamp_reference, Hr.
    destruct (reference_clamp_bounds x r Hr) as [Hlo Hhi].
    destruct (scaled_in_range r Hlo Hhi) as [Hrange _].
    unfold lt0.
    destruct (Qlt_le_dec r 0) as [Hneg | Hpos].
    - destruct (Qle_bool 0 r) eqn:E.
      + apply Qle_bool_iff in E. exfalso. apply (Qlt_not_le _ _ Hneg E).
      + simpl. now apply wrap16_small.
    - destruct (Qle_bool 0 r) eqn:E.
      + simpl. now apply wrap16_small.
      + exfalso. apply Qle_bool_iff in Hpos. congruence. }
  unfold scaled_trunc.
  destruct (reference_clamp x) as [r |] eqn:Hr.
  - rewrite (Hcore r eq_refl).
    destruct (reference_clamp_bounds x r Hr) as [Hlo Hhi].
    destruct (scaled_in_range r Hlo Hhi) as [Hrange [Htop Hbot]].
    split; [reflexivity | split; [exact Hrange |]].
    destruct x as [q | | |]; simpl in *.
    + inversion Hr; subst r; clear Hr.
      destruct (Qlt_le_dec 1 q) as [Hq | Hq].
      * apply Htop. apply Q.max_le_iff. right.
        apply Q.min_glb; [apply Qle_refl | now apply Qlt_le_weak].
      * destruct (Qlt_le_dec q (-1 # 1)) as [Hq' | Hq']; [| exact I].
        apply Hbot. apply Q.max_lub; [apply Qle_refl |].
        apply Qle_trans with q; [apply Q.le_min_r | now apply Qlt_le_weak].
    + inversion Hr; subst r. apply Htop. apply Qle_refl.
    + inversion Hr; subst r. apply Hbot. apply Qle_refl.
    + discriminate.
  - destruct x; simpl in Hr; try discriminate.
    cbn. repeat split; lia.
Qed.

(** C10: for every [Float32Array], every 16-bit value that
    [float32ToInt16Base64] encodes is the clamped sample scaled by
    [0x8000] (negative) or [0x7fff] (non-negative) and rounded toward
    zero; it lies in [-32768, 32767]; and a sample outside [-1, 1] is
    stored as the bound on its side instead of wrapping around.  The
    payload is the base64 text of the bytes of these values. *)
Theorem float32ToInt16Base64_saturates (float32Array : list sample) :
  int16Array float32Array = map scaled_trunc float32Array
  /\ Forall (fun v => -32768 <= v <= 32767) (int16Array float32Array)
  /\ Forall (fun x => match saturated x with
                      | Some v => encode_sample x = v
                      | None => True
                      end) float32Array
  /\ float32ToInt16Base64 float32Array
     = btoa (Uint8Array_of (map scaled_trunc float32Array)).
Proof.
  assert (H : int16Array float32Array = map scaled_trunc float32Array
              /\ Forall (fun v => -32768 <= v <= 32767) (int16Array float32Array)
              /\ Forall (fun x => match saturated x with
                                  | Some v => encode_sample x = v
                                  | None => True
                                  end) float32Array).
  { unfold int16Array.
    induction float32Array as [| x rest [IHeq [IHrange IHsat]]]; simpl.
    - repeat split; constructor.
    - destruct (encode_sample_saturates x) as [Heq [Hrange Hsat]].
      split; [now rewrite Heq, IHeq |].
      split; constructor; assumption. }
  destruct H as [Heq [Hrange Hsat]].
  repeat split; try assumption.
  unfold float32ToInt16Base64. now rewrite Heq.
Qed.

(** A frame with samples inside, on and outside the range, and the
    payloads sent for two short frames. *)
Example int16Array_frame :
  int16Array [Finite (1 # 2); Finite (-1 # 2); Finite (3 # 1);
              Finite (-7 # 2); NaN; PosInf; NegInf; Finite 0]
  = [16383; -16384; 32767; -32768; 0; 32767; -32768; 0].
Proof. reflexivity. Qed.

Example float32ToInt16Base64_frames :
  float32ToInt16Base64 [Finite (5 # 1); Finite (-5 # 1)] = "/38AgA=="%string
  /\ float32ToInt16Base64 [Finite (1 # 2); Finite (-1 # 2); Finite 0]
     = "/z8AwAAA"%string.
Proof. split; reflexivity. Qed.

(** The two bytes written for a value in range stand for that value. *)
Lemma int16_bytes_decode (v : Z) :
  -32768 <= v <= 32767 ->
  match int16_bytes v with
  | [lo; hi] => 0 <= lo < 256 /\ 0 <= hi < 256 /\ int16_of_bytes lo hi = v
  | _ => False
  end.
Proof.
  intros Hv. unfold int16_bytes, int16_of_bytes. cbv zeta.
  assert (Hu : 0 <= v mod 65536 < 65536) by (apply Z.mod_pos_bound; lia).
  set (u := v mod 65536) in *.
  assert (Hlo : 0 <= u mod 256 < 256) by (apply Z.mod_pos_bound; lia).
  assert (Hhi : 0 <= u / 256 < 256).
  { split; [apply Z.div_pos; lia | apply Z.div_lt_upper_bound; lia]. }
  repeat split; try lia.
  replace (u mod 256 + 256 * (u / 256)) with u
    by (rewrite (Z.div_mod u 256) at 1; lia).
  unfold wrap16. subst u. rewrite Z.mod_mod by lia.
  fold (wrap16 v). now apply wrap16_small.
Qed.

End PcmFacts.
Module PlayerFacts.
Import Player.

Section Browser.
Variable atob : string -> option string.
Variable appendBuffer_ok : bytes -> bool.
Variable addSourceBuffer_ok : bool.

Local Abbreviation flushQueue := (Player.flushQueue appendBuffer_ok).
Local Abbreviation addChunk := (Player.addChunk atob appendBuffer_ok).
Local Abbreviation finalize := (Player.finalize appendBuffer_ok).
Local Abbreviation exec := (Player.exec atob appendBuffer_ok addSourceBuffer_ok).
Local Abbreviation on_agent_audio_chunk :=
  (Player.on_agent_audio_chunk atob appendBuffer_ok).
Local Abbreviation pushed_by := (Player.pushed_by atob).

Lemma flushQueue_conserves (p : AudioPlayer) :
  appended (snd (flushQueue p)) ++ queue (fst (flushQueue p)) = queue p
  /\ isFinalized (fst (flushQueue p)) = isFinalized p
  /\ mediaSource (fst (flushQueue p)) = mediaSource p
  /\ Forall (fun e => match e with SourceBufferAppend _ => True | _ => False end)
            (snd (flushQueue p)).
Proof.
  unfold flushQueue.
  destruct (sourceBuffer p) as [[|] |], (mediaSource p) eqn:Hm, (queue p) eqn:Hq;
    simpl; rewrite ?Hm, ?Hq; repeat split; repeat constructor.
Qed.

Lemma flushQueue_detached (p : AudioPlayer) :
  sourceBuffer p = None -> flushQueue p = (p, []).
Proof. unfold flushQueue. now intros ->. Qed.

Lemma addChunk_conserves (a : string) (p : AudioPlayer) :
  appended (snd (addChunk a p)) ++ queue (fst (addChunk a p))
  = queue p ++ pushed_by (mediaSource p) a
  /\ isFinalized (fst (addChunk a p)) = isFinalized p.
Proof.
  unfold addChunk, pushed_by.
  destruct (String.eqb a "" || negb (mediaSource p))%bool.
  - simpl. now rewrite app_nil_r.
  - destruct (atob a) as [s |].
    + set (q := set_queue _ p).
      destruct (flushQueue_conserves q) as [Hq [Hf [_ Hall]]].
      destruct (flushQueue q) as [p1 e1]. simpl in *.
      split; [| exact Hf].
      rewrite <- Hq. f_equal.
      unfold appended. rewrite flat_map_app.
      destruct (negb (isPlaying p1) && audioElement p1)%bool; simpl;
        now rewrite app_nil_r.
    + simpl. now rewrite app_nil_r.
Qed.

Lemma resetStream_clears (p : AudioPlayer) :
  queue (fst (resetStream p)) = []
  /\ isPlaying (fst (resetStream p)) = false
  /\ isFinalized (fst (resetStream p)) = false
  /\ sourceBuffer (fst (resetStream p)) = None
  /\ mediaSource (fst (resetStream p)) = true
  /\ appended (snd (resetStream p)) = []
  /\ Forall (fun e => e <> CallOnComplete) (snd (resetStream p)).
Proof.
  unfold resetStream.
  destruct (audioElement p), (sourceBuffer p) as [[|] |]; simpl;
    repeat split; repeat constructor; discriminate.
Qed.

Lemma finalize_conserves (p : AudioPlayer) :
  appended (snd (finalize p)) ++ queue (fst (finalize p)) = queue p
  /\ isFinalized (fst (finalize p)) = true.
Proof.
  unfold finalize.
  match goal with |- context [flushQueue ?q] =>
    destruct (flushQueue_conserves q) as [Hq [Hf _]] end.
  split; assumption.
Qed.

Lemma on_agent_audio_chunk_some (p : AudioPlayer) (data : AgentAudioChunk) :
  on_agent_audio_chunk (Some p) data
  = let s3 :=
      then_do finalize (is_final data)
        (then_do (addChunk (audio data))
                 (negb (String.eqb (audio data) "") && negb (is_final data))
           (then_do resetStream (chunk_index data =? 0) (p, []))) in
    (Some (fst s3), snd s3).
Proof.
  unfold on_agent_audio_chunk, then_do, opt_call.
  destruct (chunk_index data =? 0), (negb (String.eqb (audio data) "")),
    (is_final data);
    cbn [fst snd app andb negb];
    try destruct (resetStream p) as [p1 e1];
    cbn [fst snd app];
    try destruct (addChunk (audio data) _) as [p2 e2];
    cbn [fst snd app];
    try destruct (finalize _) as [p3 e3];
    cbn [fst snd app];
    rewrite ?app_nil_r, ?app_assoc; reflexivity.
Qed.

Lemma appended_app (a b : list effect) :
  appended (a ++ b) = appended a ++ appended b.
Proof. apply flat_map_app. Qed.

(** C8: in the [agent_audio_chunk] handler the audio of a chunk is put
    on the playback queue only when [is_final] is false: on a final
    chunk nothing is added to what was queued (its audio is dropped) and
    the player is finalized; and a chunk with [chunk_index = 0] first
    resets the stream, so that nothing queued before it is kept or
    handed to the source buffer. *)
Theorem final_chunk_audio_is_dropped (p : AudioPlayer) (data : AgentAudioChunk) :
  exists p',
    fst (on_agent_audio_chunk (Some p) data) = Some p'
    /\ appended (snd (on_agent_audio_chunk (Some p) data)) ++ queue p'
       = (if chunk_index data =? 0 then [] else queue p)
         ++ (if is_final data then []
             else pushed_by (mediaSource p || (chunk_index data =? 0))
                            (audio data))
    /\ (if is_final data then isFinalized p' = true else True)
    /\ (if chunk_index data =? 0
        then appended (snd (on_agent_audio_chunk (Some p) data)) = []
             /\ sourceBuffer p' = None
        else True).
Proof.
  rewrite on_agent_audio_chunk_some. cbv zeta. cbn [fst snd].
  destruct (resetStream_clears p) as [Rq [_ [_ [Rs [Rm [Ra _]]]]]].
  set (zero := chunk_index data =? 0).
  set (s1 := then_do resetStream zero (p, [])).
  assert (H1 : appended (snd s1) = []
               /\ queue (fst s1) = (if zero then [] else queue p)
               /\ mediaSource (fst s1) = (mediaSource p || zero)%bool
               /\ (if zero then sourceBuffer (fst s1) = None else True)).
  { subst s1. unfold then_do. destruct zero; cbn [fst snd app].
    - rewrite orb_true_r. repeat split; assumption.
    - rewrite orb_false_r. repeat split; reflexivity. }
  destruct H1 as [A1 [Q1 [M1 S1]]]. clearbody s1.
  set (s2 := then_do (addChunk (audio data))
                     (negb (String.eqb (audio data) "") && negb (is_final data)) s1).
  assert (H2 : appended (snd s2) ++ queue (fst s2)
               = (if zero then [] else queue p)
                 ++ (if is_final data then []
                     else pushed_by (mediaSource p || zero) (audio data))
               /\ (if zero then appended (snd s2) = [] /\ sourceBuffer (fst s2) = None
                   else True)).
  { subst s2. unfold then_do.
    destruct (is_final data).
    - rewrite andb_false_r, A1, Q1, app_nil_r. split; [reflexivity |].
      destruct zero; [now split | exact I].
    - rewrite andb_true_r.
      destruct (negb (String.eqb (audio data) "")) eqn:Haud; cbn [fst snd].
      + destruct (addChunk_conserves (audio data) (fst s1)) as [Aq _].
        rewrite appended_app, A1. cbn [app]. rewrite Aq, Q1, M1.
        split; [reflexivity |].
        destruct zero; [| exact I].
        clear Aq. unfold addChunk.
        destruct (String.eqb (audio data) "" || negb (mediaSource (fst s1)))%bool;
          [now split |].
        destruct (atob (audio data)); [| now split].
        rewrite flushQueue_detached by exact S1. cbn [fst snd app].
        destruct (negb (isPlaying (set_queue _ (fst s1)))
                  && audioElement (set_queue _ (fst s1)))%bool; now split.
      + rewrite A1, Q1. apply negb_false_iff in Haud.
        unfold pushed_by. rewrite Haud. cbn [orb app]. rewrite app_nil_r.
        split; [reflexivity |].
        destruct zero; [now split | exact I]. }
  destruct H2 as [Q2 S2]. clearbody s2.
  exists (fst (then_do finalize (is_final data) s2)).
  split; [reflexivity |].
  unfold then_do. destruct (is_final data); cbn [fst snd].
  - destruct (finalize_conserves (fst s2)) as [Fq Ff].
    rewrite appended_app, <- app_assoc, Fq.
    repeat split; try assumption.
    destruct zero; [| exact I].
    destruct S2 as [S2a S2s].
    unfold finalize. rewrite flushQueue_detached by exact S2s.
    cbn [fst snd sourceBuffer]. rewrite app_nil_r. now split.
  - repeat split; assumption.
Qed.

Lemma flushQueue_quiet (p : AudioPlayer) :
  Forall (fun e => e <> CallOnComplete) (snd (flushQueue p)).
Proof.
  destruct (flushQueue_conserves p) as [_ [_ [_ H]]].
  eapply Forall_impl; [| exact H].
  intros e He Heq. subst e. exact He.
Qed.

Lemma exec_quiet (o : op) (p : AudioPlayer) :
  match o with
  | EvEnded => snd (exec EvEnded p)
               = (if onComplete p then [CallOnComplete] else [])
  | _ => Forall (fun e => e <> CallOnComplete) (snd (exec o p))
  end.
Proof.
  destruct o; cbn [exec].
  - apply resetStream_clears.
  - unfold addChunk.
    destruct (String.eqb base64Audio "" || negb (mediaSource p))%bool;
      [constructor |].
    destruct (atob base64Audio); [| constructor].
    match goal with |- context [flushQueue ?q] =>
      pose proof (flushQueue_quiet q) as Hq; destruct (flushQueue q) as [p1 e1] end.
    cbn [fst snd] in *. apply Forall_app. split; [exact Hq |].
    destruct (negb (isPlaying p1) && audioElement p1)%bool;
      repeat constructor; discriminate.
  - apply flushQueue_quiet.
  - apply resetStream_clears.
  - constructor.
  - reflexivity.
  - unfold on_sourceopen.
    destruct (mediaSource p && addSourceBuffer_ok)%bool; constructor.
  - unfold on_updateend.
    match goal with |- context [flushQueue ?q] =>
      pose proof (flushQueue_quiet q) as Hq; destruct (flushQueue q) as [p1 e1] end.
    cbn [fst snd] in *. apply Forall_app. split; [exact Hq |].
    destruct (isFinalized p1), (queue p1), (sourceBuffer p1) as [[|] |],
      (mediaSource p1); repeat constructor; discriminate.
  - constructor.
Qed.

Lemma sent_quiet (ws : bool) (es : list effect) :
  Forall (fun e => e <> CallOnComplete) es -> sent ws es = [].
Proof.
  induction 1 as [| e es He _ IH]; [reflexivity |].
  unfold sent in *. cbn [flat_map]. rewrite IH.
  destruct e; try reflexivity. now elim He.
Qed.

(** C9: [stop()] empties the queue and clears the playing and finalized
    flags without invoking [onComplete]; of everything that can run on
    a player only the ['ended'] listener invokes it; hence neither
    [handleInterrupt] nor the [SPEAKING -> LISTENING] state change (the
    two barge-in stops) sends [playback_complete]. *)
Theorem stop_never_completes (p : AudioPlayer) (o : op) (ws : bool)
        (playerRef : option AudioPlayer) :
  (Forall (fun e => e <> CallOnComplete) (snd (stop p))
   /\ queue (fst (stop p)) = []
   /\ isPlaying (fst (stop p)) = false
   /\ isFinalized (fst (stop p)) = false)
  /\ match o with
     | EvEnded => snd (exec EvEnded p)
                  = (if onComplete p then [CallOnComplete] else [])
     | _ => Forall (fun e => e <> CallOnComplete) (snd (exec o p))
     end
  /\ snd (handleInterrupt ws playerRef) = ws_send ws interrupt
  /\ snd (on_state_change ws playerRef SPEAKING LISTENING) = [].
Proof.
  split; [| split; [apply exec_quiet | split]].
  - unfold stop. destruct (resetStream_clears p) as [Hq [Hp [Hf [_ [_ [_ Hc]]]]]].
    repeat split; assumption.
  - unfold handleInterrupt, opt_call, stop. destruct playerRef as [q |].
    + destruct (resetStream_clears q) as [_ [_ [_ [_ [_ [_ Hc]]]]]].
      destruct (resetStream q) as [q' e]. cbn [fst snd] in *.
      now rewrite (sent_quiet ws e Hc).
    + reflexivity.
  - unfold on_state_change, opt_call, stop. destruct playerRef as [q |].
    + destruct (resetStream_clears q) as [_ [_ [_ [_ [_ [_ Hc]]]]]].
      destruct (resetStream q) as [q' e]. cbn [fst snd] in *.
      now apply sent_quiet.
    + reflexivity.
Qed.

Lemma on_agent_audio_chunk_null (data : AgentAudioChunk) :
  on_agent_audio_chunk None data = (None, []).
Proof.
  unfold Player.on_agent_audio_chunk, opt_call.
  destruct (chunk_index data =? 0),
    (negb (String.eqb (audio data) "") && negb (is_final data))%bool,
    (is_final data); reflexivity.
Qed.

End Browser.

(** A stream of three chunks on a fresh player whose source buffer has
    opened: the first two are queued or appended, the audio carried by
    the final one is not. *)
Example three_chunks :
  let atob := fun s : string => Some s in
  let ok := fun _ : bytes => true in
  let opened := fst (on_sourceopen true new_AudioPlayer) in
  let '(r1, e1) := on_agent_audio_chunk atob ok (Some opened) (mkChunk "aa" 0 false) in
  let '(r2, e2) := on_agent_audio_chunk atob ok r1 (mkChunk "bb" 1 false) in
  let '(r3, e3) := on_agent_audio_chunk atob ok r2 (mkChunk "cc" 2 true) in
  option_map queue r1 = Some [list_ascii_of_string "aa"]
  /\ option_map queue r2 = Some [list_ascii_of_string "aa"; list_ascii_of_string "bb"]
  /\ option_map queue r3 = Some [list_ascii_of_string "aa"; list_ascii_of_string "bb"]
  /\ option_map isFinalized r3 = Some true
  /\ e3 = [].
Proof. cbv zeta. repeat split. Qed.

End PlayerFacts.

Module DebounceFacts.
Import Debounce.

Lemma Qlt_bool_iff (a b : Q) : Qlt_bool a b = true <-> (a < b)%Q.
Proof.
  unfold Qlt_bool. rewrite negb_true_iff. split.
  - intros H. apply Qnot_le_lt. intros Hle.
    apply Qle_bool_iff in Hle. congruence.
  - intros H. destruct (Qle_bool b a) eqn:E; [| reflexivity].
    apply Qle_bool_iff in E. exfalso. exact (Qlt_not_le _ _ H E).
Qed.

Lemma Qlt_bool_false (a b : Q) : Qlt_bool a b = false <-> ~ (a < b)%Q.
Proof.
  rewrite <- Qlt_bool_iff. destruct (Qlt_bool a b); split; intros H;
    try reflexivity; try discriminate; try congruence; now elim H.
Qed.

(** [adjust] moves in steps of 100 up and 50 down, whatever the
    debounce: the step of the specified update is never taken below the
    upper bound. *)
Lemma adjust_increase (debounce : Z) (rate : Q) :
  Qlt_bool (30 # 100) rate = true ->
  adjust debounce rate = Z.min (debounce + 100) 1200
  /\ reference_update debounce rate = Z.min (debounce + 50) 1200.
Proof. unfold adjust, reference_update. now intros ->. Qed.

Lemma adjust_decrease (debounce : Z) (rate : Q) :
  Qlt_bool (30 # 100) rate = false ->
  Qlt_bool rate (15 # 100) = true ->
  adjust debounce rate = Z.max (debounce - 50) 400
  /\ reference_update debounce rate = Z.max (debounce - 25) 400.
Proof. unfold adjust, reference_update. now intros -> ->. Qed.

(** C4, as amended: after every turn closure the new debounce is the
    old one adjusted by the rolling rate [r]: when [r] exceeds 0.30 it
    becomes [min(debounce + 100, 1200)], when [r] is below 0.15 it
    becomes [max(debounce - 50, 400)], and otherwise it is unchanged;
    in particular from 400 ms with [r > 0.30] the next value is 500 ms,
    and at 1200 ms it stays at 1200. *)
Theorem on_turn_complete_steps_100_and_50
        (self : TurnController) (debounce : Z) (r : Q) :
  silence_debounce (on_turn_complete self)
  = adjust (silence_debounce self) (cancel_rate (get_last_10_turns self))
  /\ ((30 # 100 < r)%Q -> adjust debounce r = Z.min (debounce + 100) 1200)
  /\ ((r < 15 # 100)%Q -> adjust debounce r = Z.max (debounce - 50) 400)
  /\ (~ (30 # 100 < r)%Q -> ~ (r < 15 # 100)%Q -> adjust debounce r = debounce)
  /\ ((30 # 100 < r)%Q -> adjust 400 r = 500 /\ adjust 1200 r = 1200).
Proof.
  split; [reflexivity |].
  split; [| split; [| split]].
  - intros H. apply Qlt_bool_iff in H. now apply adjust_increase.
  - intros H.
    assert (Hn : Qlt_bool (30 # 100) r = false).
    { apply Qlt_bool_false. intros Hgt.
      apply (Qlt_irrefl r). apply Qlt_trans with (15 # 100); [exact H |].
      apply Qlt_trans with (30 # 100); [reflexivity | exact Hgt]. }
    apply Qlt_bool_iff in H. now apply adjust_decrease.
  - intros H1 H2. apply Qlt_bool_false in H1. apply Qlt_bool_false in H2.
    unfold adjust. now rewrite H1, H2.
  - intros H. apply Qlt_bool_iff in H.
    split; now apply adjust_increase.
Qed.

(** C4, as stated, fails: on a full window of ten turns with four
    flagged ones (rate 0.4) and a debounce of 400 ms,
    [on_turn_complete] stores 500 ms where the specified update gives
    450 ms; with a rate of 0.1 at 500 ms it stores 450 ms where the
    specified update gives 475 ms. *)
Lemma on_turn_complete_counterexample :
  Qlt_bool (30 # 100) (cancel_rate four_of_ten) = true
  /\ silence_debounce (on_turn_complete (mkController 400 (30 # 100) four_of_ten)) = 500
  /\ reference_update 400 (cancel_rate four_of_ten) = 450
  /\ Qlt_bool (1 # 10) (15 # 100) = true
  /\ adjust 500 (1 # 10) = 450
  /\ reference_update 500 (1 # 10) = 475
  /\ (adjust 400 (cancel_rate four_of_ten)
      =? reference_update 400 (cancel_rate four_of_ten)) = false.
Proof. repeat split; reflexivity. Qed.

Lemma get_last_10_turns_length (self : TurnController) :
  (List.length (get_last_10_turns self) <= 10)%nat.
Proof.
  unfold get_last_10_turns. rewrite length_skipn. lia.
Qed.

Lemma filter_recorded (window : list reference_turn) :
  List.length (filter was_interrupted (map recorded window))
  = List.length (filter flag window).
Proof.
  induction window as [| t rest IH]; [reflexivity |].
  cbn [map filter recorded was_interrupted].
  destruct (flag t); cbn [List.length]; now rewrite IH.
Qed.

(** C5, as amended: the rolling rate is the number of recent turns
    whose [was_interrupted] flag is set, divided by the constant 10;
    over a full window of ten turns that is the flagged count divided by
    [max(1, total)].  The turns are counted by the flag, whatever their
    outcome is. *)
Theorem cancel_rate_counts_interruptions_over_ten
        (recent_turns : list Turn) (window : list reference_turn) :
  let k := Z.of_nat (List.length (filter was_interrupted recent_turns)) in
  cancel_rate recent_turns == inject_Z k * (1 # 10)
  /\ (List.length recent_turns = 10%nat ->
      cancel_rate recent_turns
      == inject_Z k / inject_Z (Z.max 1 (Z.of_nat (List.length recent_turns))))
  /\ cancel_rate (map recorded window)
     == inject_Z (Z.of_nat (List.length (filter flag window))) * (1 # 10).
Proof.
  cbv zeta. split; [| split].
  - unfold cancel_rate. reflexivity.
  - intros ->. unfold cancel_rate. reflexivity.
  - unfold cancel_rate. rewrite filter_recorded. reflexivity.
Qed.

(** C5, as stated, fails on full windows: of ten turns with four
    barge-ins and no speculative cancellation the code's rate is 4/10
    where the specified rate is 0, and [on_turn_complete] raises the
    debounce; of ten turns with four speculative cancellations and no
    barge-in the code's rate is 0 where the specified rate is 4/10, and
    the debounce stays at 400 ms. *)
Lemma cancel_rate_counterexample :
  List.length four_barge_ins = 10%nat
  /\ cancel_rate (map recorded four_barge_ins) == 4 # 10
  /\ reference_rate four_barge_ins == 0
  /\ silence_debounce
       (on_turn_complete (mkController 400 (30 # 100) (map recorded four_barge_ins)))
     = 500
  /\ List.length four_silent_cancels = 10%nat
  /\ cancel_rate (map recorded four_silent_cancels) == 0
  /\ reference_rate four_silent_cancels == 4 # 10
  /\ silence_debounce
       (on_turn_complete (mkController 400 (30 # 100) (map recorded four_silent_cancels)))
     = 400
  /\ Qeq_bool (cancel_rate (map recorded four_barge_ins))
              (reference_rate four_barge_ins) = false.
Proof. repeat split; reflexivity. Qed.

End DebounceFacts.

Module SegmenterFacts.
Import Segmenter.
Local Open Scope string_scope.
Local Open Scope list_scope.

Example stream_sentences_two_sentences :
  stream_sentences_from [] ["Hi"; "."; " How"; " are you"; "?"; " Fine"]
  = (["Hi."; " How are you?"], [" Fine"]).
Proof. reflexivity. Qed.

Lemma any_terminator_nonempty (s : string) :
  any_terminator s = true -> s <> "".
Proof. intros H ->. discriminate. Qed.

(** The loop invariant of [stream_sentences]: started on a buffer
    without terminator, the yielded sentences are the joins of
    consecutive groups of tokens, each group ending with the first token
    that brings a terminator into it. *)
Lemma stream_sentences_from_groups (tokens buffer : list string) :
  any_terminator (join buffer) = false ->
  exists groups : list (list string),
    List.concat groups ++ snd (stream_sentences_from buffer tokens) = buffer ++ tokens
    /\ fst (stream_sentences_from buffer tokens) = map join groups
    /\ Forall (fun g => any_terminator (join g) = true
                        /\ any_terminator (join (removelast g)) = false) groups
    /\ any_terminator (join (snd (stream_sentences_from buffer tokens))) = false.
Proof.
  revert buffer. induction tokens as [| token rest IH]; intros buffer Hbuf.
  - exists []. cbn. rewrite app_nil_r. repeat split; [constructor | exact Hbuf].
  - cbn [stream_sentences_from].
    destruct (any_terminator (join (buffer ++ [token]))) eqn:Hterm.
    + destruct (IH [] eq_refl) as [groups [Hcat [Hout [Hall Hrest]]]].
      destruct (stream_sentences_from [] rest) as [ys b]. cbn [fst snd] in *.
      exists ((buffer ++ [token]) :: groups). repeat split.
      * cbn [List.concat]. rewrite <- !app_assoc, Hcat. reflexivity.
      * cbn [map]. now rewrite Hout.
      * constructor; [| exact Hall].
        split; [exact Hterm |]. now rewrite removelast_last.
      * exact Hrest.
    + destruct (IH (buffer ++ [token]) Hterm) as [groups [Hcat [Hout [Hall Hrest]]]].
      exists groups. repeat split; try assumption.
      rewrite Hcat, <- app_assoc. reflexivity.
Qed.

(** C6, as amended: for every token stream the segmenter yields the
    running buffer exactly when the token just appended brings one of
    ['.'], ['?'], ['!'] into it, whatever follows the mark: the yielded
    sentences are the joins of consecutive groups of tokens, each group
    ending at the first token that makes it hold a mark; every yielded
    sentence holds a mark and has a positive length; the tokens left in
    the buffer when the stream closes hold no mark. *)
Theorem stream_sentences_yields_on_terminator (tokens : list string) :
  exists groups : list (list string),
    List.concat groups ++ snd (stream_sentences_from [] tokens) = tokens
    /\ stream_sentences tokens = map join groups
    /\ Forall (fun g => any_terminator (join g) = true
                        /\ any_terminator (join (removelast g)) = false) groups
    /\ any_terminator (join (snd (stream_sentences_from [] tokens))) = false
    /\ Forall (fun s => any_terminator s = true /\ (0 < String.length s)%nat)
              (stream_sentences tokens).
Proof.
  destruct (stream_sentences_from_groups tokens [] eq_refl)
    as [groups [Hcat [Hout [Hall Hrest]]]].
  exists groups. unfold stream_sentences. repeat split; try assumption.
  rewrite Hout. apply Forall_map.
  eapply Forall_impl; [| exact Hall].
  intros g [Hg _]. split; [exact Hg |].
  destruct (join g); [discriminate | cbn; lia].
Qed.

(** C6, as stated, fails: the mark of "3.5" ends a sentence although a
    digit follows it and the rest of the input is never yielded; and a
    sentence made of a mark alone is yielded. *)
Lemma stream_sentences_counterexample :
  let tokens := ["The price is 3"; "."; "5 dollars"] in
  stream_sentences tokens = ["The price is 3."]
  /\ ends_before_space (chars (join tokens)) (stream_sentences tokens) = false
  /\ tail_flushed (chars (join tokens)) (stream_sentences tokens) = false
  /\ meets_specification tokens (stream_sentences tokens) = false
  /\ stream_sentences ["Wait"; "..."; "."] = ["Wait..."; "."]
  /\ only_punctuation "." = true
  /\ meets_specification ["Wait"; "..."; "."] (stream_sentences ["Wait"; "..."; "."]) = false.
Proof. cbv zeta. repeat split; vm_compute; reflexivity. Qed.

(** The output the three requirements accept on the first stream. *)
Example meets_specification_accepts :
  meets_specification ["The price is 3"; "."; "5 dollars"] ["The price is 3.5 dollars"] = true
  /\ meets_specification ["Hi."; " How are"; " you?"] ["Hi."; "How are you?"] = true.
Proof. split; vm_compute; reflexivity. Qed.

End SegmenterFacts.

Module InterruptFacts.
Import Interrupt.

(** C7, as amended: when [handle_interrupt] runs in [SPEAKING] it sets
    the cancel event that the LLM and the TTS streams share, moves the
    state to [LISTENING], which marks the outgoing turn as interrupted,
    and, when a Deepgram client is attached, makes it finalize the
    current utterance once; without a client nothing is finalized.  In
    every other state it does nothing. *)
Theorem handle_interrupt_cancels_and_finalizes (self : TurnController) :
  match current_state self with
  | SPEAKING =>
      tts_cancel (handle_interrupt self) = true
      /\ llm_cancel (handle_interrupt self) = true
      /\ current_state (handle_interrupt self) = LISTENING
      /\ turn_was_interrupted (handle_interrupt self) = true
      /\ deepgram_client (handle_interrupt self)
         = option_map (fun c => mkClient (S (finish_utterance_sent c)))
                      (deepgram_client self)
      /\ barge_in_done self (handle_interrupt self)
         = match deepgram_client self with Some _ => true | None => false end
  | _ => handle_interrupt self = self
  end.
Proof.
  unfold handle_interrupt.
  destruct (current_state self) eqn:Hs; try reflexivity.
  unfold barge_in_done, finalize_forced, send_finish_utterance, transition_to,
    set_cancel_event, tts_cancel, llm_cancel.
  cbn. rewrite Hs.
  destruct (deepgram_client self) as [c |]; cbn; repeat split.
  now rewrite Nat.leb_refl.
Qed.

(** C7, as stated, fails: without a Deepgram client a barge-in in
    [SPEAKING] cancels, marks the turn and goes to [LISTENING], but no
    finalization of the utterance is forced. *)
Lemma handle_interrupt_counterexample :
  handle_interrupt (mkController SPEAKING false None false)
  = mkController LISTENING true None true
  /\ finalize_forced (mkController SPEAKING false None false)
                     (handle_interrupt (mkController SPEAKING false None false))
     = false
  /\ barge_in_done (mkController SPEAKING false None false)
                   (handle_interrupt (mkController SPEAKING false None false))
     = false.
Proof. repeat split; reflexivity. Qed.

End InterruptFacts.

Module RunLlmFacts.
Import RunLlm.
Local Open Scope string_scope.
Local Open Scope list_scope.

Lemma append_nil_r (s : string) : (s ++ "")%string = s.
Proof. induction s as [| c s IH]; cbn; [reflexivity | now rewrite IH]. Qed.

Lemma append_assoc (a b c : string) :
  ((a ++ b) ++ c)%string = (a ++ (b ++ c))%string.
Proof. induction a as [| x a IH]; cbn; [reflexivity | now rewrite IH]. Qed.

Lemma join_cons (t : string) (rest : list string) :
  Segmenter.join (t :: rest) = (t ++ Segmenter.join rest)%string.
Proof.
  unfold Segmenter.join. destruct rest as [| t' rest']; cbn.
  - now rewrite append_nil_r.
  - reflexivity.
Qed.

Lemma stream_tokens_trace (tokens : list string) (full : string)
      (st : Segmenter.llm_state) :
  fst (fst (stream_tokens tokens full st)) = (full ++ Segmenter.join tokens)%string
  /\ snd (stream_tokens tokens full st) = map TokenArrived tokens.
Proof.
  revert full st. induction tokens as [| t rest IH]; intros full st.
  - cbn. now rewrite append_nil_r.
  - cbn [stream_tokens].
    specialize (IH (full ++ t)%string (Segmenter.on_token t st)).
    destruct (stream_tokens rest (full ++ t)%string (Segmenter.on_token t st))
      as [[full' st'] evs].
    cbn [fst snd] in *. destruct IH as [-> ->].
    now rewrite join_cons, append_assoc.
Qed.

Lemma tts_before_complete_tokens (tokens : list string) (tail : list event) :
  tts_before_complete (map TokenArrived tokens ++ LlmComplete :: tail) = [].
Proof. induction tokens as [| t rest IH]; [reflexivity | exact IH]. Qed.

Lemma tts_requests_tokens (tokens : list string) (tail : list event) :
  tts_requests (map TokenArrived tokens ++ tail) = tts_requests tail.
Proof. induction tokens as [| t rest IH]; [reflexivity | exact IH]. Qed.

(** C2: [_run_llm] issues no TTS request before the LLM stream has
    completed, and then a single one that carries the whole response:
    on the stream "Hi", ".", " How are you", "?" the first sentence is
    ready after the second token ([first_sentence_ready] is set), yet
    the only request is for "Hi. How are you?", after [LlmComplete]. *)
Theorem run_llm_waits_for_full_response (tokens : list string) :
  snd (_run_llm tokens false)
  = map TokenArrived tokens ++ [LlmComplete; TtsRequest (Segmenter.join tokens)]
  /\ tts_before_complete (snd (_run_llm tokens false)) = []
  /\ tts_requests (snd (_run_llm tokens false)) = [Segmenter.join tokens]
  /\ snd (_run_llm ["Hi"; "."; " How are you"; "?"] false)
     = [TokenArrived "Hi"; TokenArrived "."; TokenArrived " How are you";
        TokenArrived "?"; LlmComplete; TtsRequest "Hi. How are you?"]
  /\ Segmenter.first_sentence_ready
       (Segmenter.on_token "." (Segmenter.on_token "Hi" (Segmenter.mkLlm [] false)))
     = true.
Proof.
  assert (Htrace : snd (_run_llm tokens false)
                   = map TokenArrived tokens
                     ++ [LlmComplete; TtsRequest (Segmenter.join tokens)]).
  { unfold _run_llm, generate_response, _run_tts.
    destruct (stream_tokens_trace tokens "" (Segmenter.mkLlm [] false)) as [Hfull Hevs].
    destruct (stream_tokens tokens "" (Segmenter.mkLlm [] false)) as [[full st] evs].
    cbn [fst snd] in *. subst. cbn [append]. now rewrite <- app_assoc. }
  rewrite Htrace. repeat split; try reflexivity.
  - apply tts_before_complete_tokens.
  - now rewrite tts_requests_tokens.
Qed.

End RunLlmFacts.


Module ControllerFacts.
Import Controller.
Local Open Scope string_scope.
Local Open Scope list_scope.
Local Open Scope nat_scope.

Ltac step_case :=
  cbn; repeat split; try lia;
  repeat (constructor; [split; cbn; intros; try discriminate;
                        repeat match goal with
                               | H : Some _ = Some _ |- _ => inversion H; subst; clear H
                               end;
                        repeat split; try reflexivity; try lia;
                        repeat constructor |]);
  try constructor.

Lemma step_facts (c : controller) (e : event) :
  turn c <= turn (fst (step c e))
  /\ bound c <= bound (fst (step c e))
  /\ Forall (step_ok c (fst (step c e)) (snd (step c e))) (snd (step c e)).
Proof.
  unfold bound, step_ok.
  destruct c as [st tn buf tmr lc tc hd rel nc].
  destruct e; cbn [step].
  - (* AudioFrame *)
    destruct st; step_case.
  - (* Partial *)
    destruct st; step_case.
  - (* Final *)
    unfold on_final. cbn [buffer]. destruct (locked buf); [step_case |].
    destruct st; step_case.
  - (* SilenceTimeout *)
    unfold on_silence_timeout. cbn [state timer_running].
    destruct st, tmr; try solve [step_case].
    cbn. repeat split; try lia.
    constructor.
    + split; cbn; intros; discriminate.
    + apply Forall_map. apply Forall_forall. intros s _.
      split; cbn; intros t Ht; [| discriminate].
      inversion Ht; subst. split; [reflexivity | lia].
  - (* InterruptMessage *)
    destruct st; step_case.
  - (* PlaybackComplete *)
    destruct st; step_case.
  - (* LlmSentence *)
    unfold on_llm_sentence. cbn [turn llm_cancel state].
    destruct (negb (Nat.eqb t tn) || lc)%bool; [step_case |].
    destruct st; step_case.
  - (* TtsChunk *)
    unfold on_tts_chunk. cbn [turn tts_cancel state].
    destruct (negb (Nat.eqb t tn) || tc)%bool; [step_case |].
    destruct st; step_case.
  - (* TtsFailed *)
    unfold on_tts_failed. cbn [turn state].
    destruct (negb (Nat.eqb t tn)); [step_case |].
    destruct st; step_case.
Qed.

Lemma silent_cancels_step (c : controller) (outs : list output) (e : event) :
  silent_cancels c outs ->
  silent_cancels (fst (step c e)) (outs ++ snd (step c e)).
Proof.
  intros [I1 I2].
  destruct (step_facts c e) as [Hturn [Hbound Hall]].
  rewrite Forall_forall in Hall.
  split.
  - intros o t Hin Hs. apply in_app_or in Hin. destruct Hin as [Hin | Hin].
    + specialize (I1 o t Hin Hs). lia.
    + destruct (Hall o Hin) as [Hsurf _]. now destruct (Hsurf t Hs).
  - intros o t Hin Hc. apply in_app_or in Hin. destruct Hin as [Hin | Hin].
    + destruct (I2 o t Hin Hc) as [Hlt [Ho Hnone]].
      split; [lia | split; [exact Ho |]].
      intros o' Hin' Hs'. apply in_app_or in Hin'. destruct Hin' as [Hin' | Hin'].
      * exact (Hnone o' Hin' Hs').
      * destruct (Hall o' Hin') as [Hsurf _].
        destruct (Hsurf t Hs') as [Heq _]. lia.
    + destruct (Hall o Hin) as [_ Hcan].
      destruct (Hcan t Hc) as [Heq [Hquiet [Hnext [Hnone Ho]]]].
      split; [lia | split; [exact Ho |]].
      intros o' Hin' Hs'. apply in_app_or in Hin'. destruct Hin' as [Hin' | Hin'].
      * specialize (I1 o' t Hin' Hs'). unfold bound in I1.
        rewrite Hquiet in I1. lia.
      * rewrite Forall_forall in Hnone. rewrite (Hnone o' Hin') in Hs'. discriminate.
Qed.

Lemma silent_cancels_run (events : list event) (c : controller) (outs : list output) :
  silent_cancels c outs ->
  silent_cancels (fst (run c events)) (outs ++ snd (run c events)).
Proof.
  revert c outs. induction events as [| e rest IH]; intros c outs Hinv.
  - cbn. now rewrite app_nil_r.
  - cbn [run].
    pose proof (silent_cancels_step c outs e Hinv) as Hstep.
    specialize (IH (fst (step c e)) (outs ++ snd (step c e)) Hstep).
    destruct (step c e) as [c1 out1]. cbn [fst snd] in *.
    destruct (run c1 rest) as [c2 out2]. cbn [fst snd] in *.
    now rewrite app_assoc.
Qed.

Lemma sourced_mono (seen more : list event) (o : output) :
  sourced seen o -> sourced (seen ++ more) o.
Proof.
  destruct o; cbn; try tauto; try (intros H; apply in_or_app; now left);
    intros [ss [Ht Hall]]; exists ss; (split; [exact Ht |]);
    apply Forall_impl with (2 := Hall); intros s Hs; apply in_or_app; now left.
Qed.

Lemma sentences_mono (seen more : list event) (t : nat) (l : list string) :
  Forall (fun s => In (LlmSentence t s) seen) l ->
  Forall (fun s => In (LlmSentence t s) (seen ++ more)) l.
Proof.
  intros H. apply Forall_impl with (2 := H). intros s Hs.
  apply in_or_app. now left.
Qed.

Lemma agent_text_sourced (seen : list event) (t : nat) (l : list string) :
  Forall (fun s => In (LlmSentence t s) seen) l ->
  exists sentences,
    text_of l = text_of sentences
    /\ Forall (fun s => In (LlmSentence t s) seen) sentences.
Proof. intros H. now exists l. Qed.

Lemma empty_text_sourced (seen : list event) (t : nat) :
  exists sentences,
    "" = text_of sentences
    /\ Forall (fun s => In (LlmSentence t s) seen) sentences.
Proof. exists []. split; [reflexivity | constructor]. Qed.

Ltac sourced_case :=
  cbn -[text_of In];
  repeat match goal with
         | |- _ /\ _ => split
         | |- Forall _ [] => constructor
         | |- Forall _ (_ :: _) => constructor
         | |- sourced _ _ => cbn [sourced]
         | |- True => exact I
         | |- exists _, "" = text_of _ /\ _ => apply empty_text_sourced
         | |- exists _, text_of _ = text_of _ /\ _ => apply agent_text_sourced
         end;
  try assumption.

Lemma step_sourced (seen : list event) (c : controller) (e : event) :
  own_sentences seen c ->
  own_sentences (seen ++ [e]) (fst (step c e))
  /\ Forall (sourced (seen ++ [e])) (snd (step c e)).
Proof.
  unfold own_sentences.
  destruct c as [st tn buf tmr lc tc hd rel nc]. cbn [turn hold released].
  intros H. apply (sentences_mono seen [e]) in H.
  pose proof H as Hboth.
  apply Forall_app in H. destruct H as [Hhold Hrel].
  destruct e; cbn [step].
  - (* AudioFrame *)
    destruct st; sourced_case.
  - (* Partial *)
    destruct st; sourced_case.
  - (* Final *)
    unfold on_final. cbn [buffer state]. destruct (locked buf); [sourced_case |].
    destruct st; sourced_case.
  - (* SilenceTimeout *)
    unfold on_silence_timeout. cbn [state timer_running].
    destruct st, tmr; try solve [sourced_case].
    cbn [fst snd turn hold released app]. split; [exact Hhold |].
    constructor; [exact I |].
    apply Forall_map. exact Hhold.
  - (* InterruptMessage *)
    destruct st; sourced_case.
  - (* PlaybackComplete *)
    destruct st; sourced_case.
  - (* LlmSentence *)
    unfold on_llm_sentence. cbn [turn llm_cancel state].
    destruct (Nat.eqb_spec t tn) as [-> | Hne]; cbn [negb orb]; [| sourced_case].
    destruct lc; [sourced_case |].
    assert (Hnew : In (LlmSentence tn sentence) (seen ++ [LlmSentence tn sentence]))
      by (apply in_or_app; right; now left).
    destruct st; sourced_case.
    + rewrite <- app_assoc. apply Forall_app. split; [exact Hhold |].
      constructor; [exact Hnew | exact Hrel].
    + rewrite app_assoc. apply Forall_app. split; [exact Hboth |].
      constructor; [exact Hnew | constructor].
    + rewrite app_assoc. apply Forall_app. split; [exact Hboth |].
      constructor; [exact Hnew | constructor].
  - (* TtsChunk *)
    unfold on_tts_chunk. cbn [turn tts_cancel state].
    destruct (Nat.eqb_spec t tn) as [-> | Hne]; cbn [negb orb]; [| sourced_case].
    destruct tc; [sourced_case |].
    destruct st; sourced_case; apply in_or_app; right; now left.
  - (* TtsFailed *)
    unfold on_tts_failed. cbn [turn state].
    destruct (Nat.eqb_spec t tn) as [-> | Hne]; cbn [negb]; [| sourced_case].
    destruct st; sourced_case.
Qed.

Lemma run_sourced (events seen : list event) (c : controller) :
  own_sentences seen c ->
  own_sentences (seen ++ events) (fst (run c events))
  /\ Forall (sourced (seen ++ events)) (snd (run c events)).
Proof.
  revert seen c. induction events as [| e rest IH]; intros seen c Hown.
  - cbn. rewrite app_nil_r. split; [exact Hown | constructor].
  - cbn [run].
    destruct (step_sourced seen c e Hown) as [Hown1 Hout1].
    destruct (step c e) as [c1 out1]. cbn [fst snd] in *.
    destruct (IH (seen ++ [e]) c1 Hown1) as [Hown2 Hout2].
    destruct (run c1 rest) as [c2 out2]. cbn [fst snd] in *.
    rewrite <- app_assoc in Hown2, Hout2. cbn [app] in Hown2, Hout2.
    split; [exact Hown2 |].
    apply Forall_app. split; [| exact Hout2].
    apply Forall_impl with (2 := Hout1). intros o Ho.
    replace (seen ++ e :: rest) with ((seen ++ [e]) ++ rest)
      by now rewrite <- app_assoc.
    now apply sourced_mono.
Qed.

Lemma cancel_discards (c : controller) (e : event) (t : nat) (agent_text : string) :
  In (turn_record t speculatively_canceled agent_text) (snd (step c e)) ->
  state c = SPECULATIVE
  /\ t = turn c
  /\ state (fst (step c e)) = LISTENING
  /\ hold (fst (step c e)) = []
  /\ released (fst (step c e)) = []
  /\ llm_cancel (fst (step c e)) = true.
Proof.
  destruct c as [st tn buf tmr lc tc hd rel nc].
  destruct e; cbn [step].
  - destruct st; cbn; intros H; intuition (try discriminate; try congruence).
  - destruct st; cbn; intros H; intuition (try discriminate; try congruence).
  - unfold on_final. cbn [buffer state].
    destruct (locked buf); [cbn; tauto |].
    destruct st; cbn; intros H; intuition (try discriminate; try congruence).
  - unfold on_silence_timeout. cbn [state timer_running].
    destruct st, tmr; try (cbn; tauto).
    cbn [snd]. intros [H | H]; [discriminate |].
    apply in_map_iff in H. destruct H as [s [H _]]. discriminate.
  - destruct st; cbn; intros H; intuition (try discriminate; try congruence).
  - destruct st; cbn; intros H; intuition (try discriminate; try congruence).
  - unfold on_llm_sentence. cbn [turn llm_cancel state].
    destruct (negb (Nat.eqb t0 tn) || lc)%bool; [cbn; tauto |].
    destruct st; cbn; intros H; intuition (try discriminate; try congruence).
  - unfold on_tts_chunk. cbn [turn tts_cancel state].
    destruct (negb (Nat.eqb t0 tn) || tc)%bool; [cbn; tauto |].
    destruct st; cbn; intros H; intuition (try discriminate; try congruence).
  - unfold on_tts_failed. cbn [turn state].
    destruct (negb (Nat.eqb t0 tn)); [cbn; tauto |].
    destruct st; cbn; intros H; intuition (try discriminate; try congruence).
Qed.

(** C1: in every run, a turn marked [speculatively_canceled] has an
    empty agent text, no [agent_audio_chunk], no [agent_text_fallback]
    and no [turn_complete] is emitted for it, and none of its sentences
    was handed to the TTS.  What the speculation held is discarded and
    reaches nobody later: every sentence handed to the TTS and every
    agent text of the run is made of sentences of the LLM stream of the
    very turn it is emitted for, every audio chunk comes from the TTS
    stream of its turn, the sentences the controller still keeps are
    those of the current turn, and the step that marks a turn
    [speculatively_canceled] leaves [SPECULATIVE] for [LISTENING] with
    the hold buffer empty and the LLM cancellation set. *)
Theorem speculatively_canceled_turn_is_silent
        (events : list event) (t : nat) (agent_text : string) :
  In (turn_record t speculatively_canceled agent_text) (snd (run init events)) ->
  agent_text = ""
  /\ Forall (fun o => surfaced o <> Some t) (snd (run init events))
  /\ Forall (sourced events) (snd (run init events))
  /\ own_sentences events (fst (run init events))
  /\ (forall c e t' text,
        In (turn_record t' speculatively_canceled text) (snd (step c e)) ->
        state c = SPECULATIVE
        /\ t' = turn c
        /\ state (fst (step c e)) = LISTENING
        /\ hold (fst (step c e)) = []
        /\ released (fst (step c e)) = []
        /\ llm_cancel (fst (step c e)) = true).
Proof.
  intros Hin.
  assert (Hinit : silent_cancels init []).
  { split; intros o t' []. }
  pose proof (silent_cancels_run events init [] Hinit) as [_ I2].
  cbn [app] in I2.
  destruct (I2 _ t Hin eq_refl) as [_ [Ho Hnone]].
  assert (Hown : own_sentences [] init) by constructor.
  destruct (run_sourced events [] init Hown) as [Hown' Hsrc].
  cbn [app] in Hown', Hsrc.
  split; [now inversion Ho |].
  split; [apply Forall_forall; exact Hnone |].
  split; [exact Hsrc |].
  split; [exact Hown' |].
  exact cancel_discards.
Qed.

(** The user goes on speaking while the first sentence of the
    speculative answer is held; the answer to the finished utterance is
    then spoken without it. *)
Lemma speculatively_canceled_turn_is_silent_witness :
  let events :=
    [AudioFrame; Final "I want to book"; LlmSentence 0 "Sure, booking a hotel.";
     Partial "I want to book a flight"; Final "I want to book a flight";
     LlmSentence 1 "Which city?"; SilenceTimeout; TtsChunk 1 "AAAA" true;
     PlaybackComplete] in
  snd (run init events)
  = [state_change IDLE LISTENING;
     transcript_final "I want to book";
     state_change LISTENING SPECULATIVE;
     transcript_partial "I want to book a flight";
     turn_record 0 speculatively_canceled "";
     state_change SPECULATIVE LISTENING;
     transcript_final "I want to book a flight";
     state_change LISTENING SPECULATIVE;
     state_change SPECULATIVE COMMITTED;
     to_tts 1 "Which city?";
     agent_audio_chunk 1 "AAAA" 0 true;
     state_change COMMITTED SPEAKING;
     turn_complete 1 "Which city?" false;
     turn_record 1 completed "Which city?";
     state_change SPEAKING IDLE]
  /\ ("" = ""
      /\ Forall (fun o => surfaced o <> Some 0) (snd (run init events))
      /\ Forall (sourced events) (snd (run init events))
      /\ own_sentences events (fst (run init events))
      /\ (forall c e t' text,
            In (turn_record t' speculatively_canceled text) (snd (step c e)) ->
            state c = SPECULATIVE
            /\ t' = turn c
            /\ state (fst (step c e)) = LISTENING
            /\ hold (fst (step c e)) = []
            /\ released (fst (step c e)) = []
            /\ llm_cancel (fst (step c e)) = true)).
Proof.
  cbv zeta. split; [reflexivity |].
  apply (speculatively_canceled_turn_is_silent
           [AudioFrame; Final "I want to book"; LlmSentence 0 "Sure, booking a hotel.";
            Partial "I want to book a flight"; Final "I want to book a flight";
            LlmSentence 1 "Which city?"; SilenceTimeout; TtsChunk 1 "AAAA" true;
            PlaybackComplete] 0 "").
  cbn. tauto.
Defined.






(** A committed turn does surface its held sentence and its audio. *)
Example committed_turn_speaks :
  snd (run init [AudioFrame; Final "Hello there"; LlmSentence 0 "Hi!";
                 SilenceTimeout; TtsChunk 0 "AAAA" false; LlmSentence 0 "How are you?";
                 TtsChunk 0 "BBBB" true; PlaybackComplete])
  = [state_change IDLE LISTENING;
     transcript_final "Hello there";
     state_change LISTENING SPECULATIVE;
     state_change SPECULATIVE COMMITTED;
     to_tts 0 "Hi!";
     agent_audio_chunk 0 "AAAA" 0 false;
     state_change COMMITTED SPEAKING;
     to_tts 0 "How are you?";
     agent_audio_chunk 0 "BBBB" 1 true;
     turn_complete 0 "Hi! How are you?" false;
     turn_record 0 completed "Hi! How are you?";
     state_change SPEAKING IDLE].
Proof. reflexivity. Qed.

End ControllerFacts.

Module PlayerRunFacts.
Import Player PlayerRun.

Section Browser.
Variable atob : string -> option string.
Variable appendBuffer_ok : bytes -> bool.
Variable addSourceBuffer_ok : bool.

Local Abbreviation flushQueue := (Player.flushQueue appendBuffer_ok).
Local Abbreviation exec := (Player.exec atob appendBuffer_ok addSourceBuffer_ok).
Local Abbreviation run := (PlayerRun.run atob appendBuffer_ok addSourceBuffer_ok).
Local Abbreviation pushes := (PlayerRun.pushes atob).

Lemma player_run_cons (o : op) (rest : list op) (p : AudioPlayer) :
  run (o :: rest) p
  = (fst (run rest (fst (exec o p))),
     snd (exec o p) ++ snd (run rest (fst (exec o p)))).
Proof.
  cbn [PlayerRun.run]. destruct (exec o p) as [p1 e1]. cbn [fst snd].
  destruct (run rest p1) as [p2 e2]. reflexivity.
Qed.

(** One operation that does not reset the stream keeps the chunks in
    order: what it appends, followed by the queue it leaves, is the
    queue it found followed by the chunk it pushed. *)
Lemma exec_conserves (o : op) (p : AudioPlayer) :
  is_reset o = false ->
  appended (snd (exec o p)) ++ queue (fst (exec o p))
  = queue p ++ pushes (mediaSource p) o
  /\ mediaSource (fst (exec o p)) = mediaSource p.
Proof.
  intros Hreset.
  destruct o; try discriminate; cbn [Player.exec PlayerRun.pushes].
  - (* addChunk *)
    destruct (PlayerFacts.addChunk_conserves atob appendBuffer_ok base64Audio p)
      as [Hq _].
    split; [exact Hq |].
    unfold Player.addChunk.
    destruct (String.eqb base64Audio "" || negb (mediaSource p))%bool;
      [reflexivity |].
    destruct (atob base64Audio); [| reflexivity].
    match goal with |- context [flushQueue ?q] =>
      destruct (PlayerFacts.flushQueue_conserves appendBuffer_ok q)
        as [_ [_ [Hm _]]];
      destruct (flushQueue q) as [p1 e1] end.
    cbn [fst snd] in *. exact Hm.
  - (* finalize *)
    destruct (PlayerFacts.finalize_conserves appendBuffer_ok p) as [Hq _].
    rewrite app_nil_r. split; [exact Hq |].
    unfold Player.finalize.
    match goal with |- context [flushQueue ?q] =>
      destruct (PlayerFacts.flushQueue_conserves appendBuffer_ok q)
        as [_ [_ [Hm _]]] end.
    exact Hm.
  - (* setOnComplete *)
    cbn. now rewrite app_nil_r.
  - (* ended *)
    cbn. destruct (onComplete p); cbn; now rewrite app_nil_r.
  - (* sourceopen *)
    unfold on_sourceopen.
    destruct (mediaSource p) eqn:Hm; cbn; rewrite ?Hm;
      destruct addSourceBuffer_ok; cbn; rewrite ?app_nil_r; auto.
  - (* updateend *)
    unfold on_updateend.
    match goal with |- context [flushQueue ?q] =>
      destruct (PlayerFacts.flushQueue_conserves appendBuffer_ok q)
        as [Hq [_ [Hm _]]];
      destruct (flushQueue q) as [p1 e1] end.
    cbn [fst snd queue mediaSource] in *.
    rewrite app_nil_r, PlayerFacts.appended_app, <- app_assoc.
    split; [| exact Hm].
    replace (appended _ ++ queue p1) with (queue p1); [exact Hq |].
    destruct (isFinalized p1), (queue p1), (sourceBuffer p1) as [[|] |],
      (mediaSource p1); reflexivity.
  - (* play resolved *)
    cbn. now rewrite app_nil_r.
Qed.

(** X1.  Chunks are played in the order they arrive.  Over any sequence
    of methods and listeners that contains neither [resetStream()] nor
    [stop()], the buffers handed to [appendBuffer], followed by the
    queue left at the end, are the queue found at the start followed by
    the chunks [addChunk] decoded, in order: nothing is reordered,
    duplicated or invented. *)
Theorem queue_is_first_in_first_out (ops : list op) (p : AudioPlayer) :
  forallb (fun o => negb (is_reset o)) ops = true ->
  appended (snd (run ops p)) ++ queue (fst (run ops p))
  = queue p ++ flat_map (pushes (mediaSource p)) ops.
Proof.
  revert p. induction ops as [| o rest IH]; intros p Hall.
  - cbn. now rewrite app_nil_r.
  - cbn [forallb] in Hall. apply andb_true_iff in Hall. destruct Hall as [Ho Hrest].
    apply negb_true_iff in Ho.
    destruct (exec_conserves o p Ho) as [Hq Hm].
    rewrite player_run_cons. cbn [fst snd flat_map].
    rewrite PlayerFacts.appended_app, <- app_assoc, (IH _ Hrest), Hm.
    now rewrite !app_assoc, Hq.
Qed.

Lemma flushQueue_busy (p : AudioPlayer) :
  can_append p = false -> flushQueue p = (p, []).
Proof.
  unfold can_append, Player.flushQueue.
  destruct (sourceBuffer p) as [[|] |], (mediaSource p); intros H;
    try reflexivity; discriminate.
Qed.

Lemma exec_busy (o : op) (p : AudioPlayer) :
  can_append p = false -> wakes o = false ->
  appended (snd (exec o p)) = [] /\ can_append (fst (exec o p)) = false.
Proof.
  intros Hbusy Hwake.
  destruct o; try discriminate; cbn [Player.exec].
  - split; [| reflexivity].
    unfold Player.resetStream. cbn [snd].
    destruct (audioElement p), (sourceBuffer p) as [[|] |]; reflexivity.
  - unfold Player.addChunk.
    destruct (String.eqb base64Audio "" || negb (mediaSource p))%bool;
      [now split |].
    destruct (atob base64Audio); [| now split].
    rewrite flushQueue_busy by exact Hbusy.
    cbn [fst snd app]. split; [| exact Hbusy].
    destruct (negb _ && _)%bool; reflexivity.
  - unfold Player.finalize. rewrite flushQueue_busy by exact Hbusy.
    now split.
  - split; [| reflexivity].
    unfold Player.stop, Player.resetStream. cbn [snd].
    destruct (audioElement p), (sourceBuffer p) as [[|] |]; reflexivity.
  - now split.
  - cbn. split; [| exact Hbusy]. destruct (onComplete p); reflexivity.
  - now split.
Qed.

(** X2.  While the source buffer is missing or still updating (or the
    media source is absent), no sequence of [resetStream], [addChunk],
    [finalize], [stop], [setOnComplete], ['ended'] and resolved
    [play()] hands anything to [appendBuffer]: only the ['updateend']
    and ['sourceopen'] listeners make appending possible again. *)
Theorem busy_buffer_gets_no_append (ops : list op) (p : AudioPlayer) :
  can_append p = false ->
  forallb (fun o => negb (wakes o)) ops = true ->
  appended (snd (run ops p)) = []
  /\ can_append (fst (run ops p)) = false.
Proof.
  revert p. induction ops as [| o rest IH]; intros p Hbusy Hall.
  - now split.
  - cbn [forallb] in Hall. apply andb_true_iff in Hall. destruct Hall as [Ho Hrest].
    apply negb_true_iff in Ho.
    destruct (exec_busy o p Hbusy Ho) as [Ha Hb].
    destruct (IH _ Hb Hrest) as [Ha' Hb'].
    rewrite player_run_cons. cbn [fst snd].
    rewrite PlayerFacts.appended_app, Ha, Ha'. now split.
Qed.

Lemma flushQueue_appends_one (p : AudioPlayer) :
  (List.length (appended (snd (flushQueue p))) <= 1)%nat
  /\ (forall b, In b (appended (snd (flushQueue p))) ->
      can_append p = true
      /\ sourceBuffer (fst (flushQueue p)) = Some (appendBuffer_ok b)).
Proof.
  unfold Player.flushQueue, can_append.
  destruct (sourceBuffer p) as [[|] |], (mediaSource p);
    try (cbn; split; [lia | intros b []]).
  destruct (queue p) as [| next rest]; cbn.
  - split; [lia | intros b []].
  - split; [lia |]. intros b [<- | []]. now split.
Qed.

(** X3.  A method or listener calls [appendBuffer] at most once, and
    after the call the [updating] flag is raised iff the browser
    accepted the buffer.  Outside the ['updateend'] and ['sourceopen']
    listeners an append happens only when the buffer was attached and
    idle. *)
Theorem one_append_at_a_time (o : op) (p : AudioPlayer) :
  (List.length (appended (snd (exec o p))) <= 1)%nat
  /\ (forall b, In b (appended (snd (exec o p))) ->
      sourceBuffer (fst (exec o p)) = Some (appendBuffer_ok b)
      /\ (wakes o = false -> can_append p = true)).
Proof.
  destruct o; cbn [Player.exec].
  - unfold Player.resetStream. cbn [fst snd].
    assert (H : appended ((if audioElement p then [ElementPause] else []) ++
                 match sourceBuffer p with
                 | Some true => [SourceBufferAbort] | _ => [] end ++
                 (if audioElement p then [ElementSetSrc] else [])) = [])
      by (destruct (audioElement p), (sourceBuffer p) as [[|] |]; reflexivity).
    rewrite H. cbn. split; [lia | intros b []].
  - unfold Player.addChunk.
    destruct (String.eqb base64Audio "" || negb (mediaSource p))%bool;
      [cbn; split; [lia | intros b []] |].
    destruct (atob base64Audio); [| cbn; split; [lia | intros b []]].
    match goal with |- context [flushQueue ?q] =>
      pose proof (flushQueue_appends_one q) as [Hlen Hin];
      destruct (flushQueue q) as [p1 e1] end.
    cbn [fst snd] in *.
    assert (He : appended (e1 ++ (if (negb (isPlaying p1) && audioElement p1)%bool
                                  then [ElementPlay] else [])) = appended e1)
      by (rewrite PlayerFacts.appended_app;
          destruct (negb _ && _)%bool; cbn; now rewrite app_nil_r).
    rewrite He. split; [exact Hlen |].
    intros b Hb. destruct (Hin b Hb) as [Hc Hs]. split; [exact Hs |].
    intros _. exact Hc.
  - unfold Player.finalize.
    match goal with |- context [flushQueue ?q] =>
      pose proof (flushQueue_appends_one q) as [Hlen Hin] end.
    split; [exact Hlen |].
    intros b Hb. destruct (Hin b Hb) as [Hc Hs]. split; [exact Hs |].
    intros _. exact Hc.
  - unfold Player.stop, Player.resetStream. cbn [fst snd].
    assert (H : appended ((if audioElement p then [ElementPause] else []) ++
                 match sourceBuffer p with
                 | Some true => [SourceBufferAbort] | _ => [] end ++
                 (if audioElement p then [ElementSetSrc] else [])) = [])
      by (destruct (audioElement p), (sourceBuffer p) as [[|] |]; reflexivity).
    rewrite H. cbn. split; [lia | intros b []].
  - cbn. split; [lia | intros b []].
  - cbn. destruct (onComplete p); cbn; (split; [lia | intros b []]).
  - unfold on_sourceopen. destruct (mediaSource p && addSourceBuffer_ok)%bool;
      cbn; (split; [lia | intros b []]).
  - unfold on_updateend.
    match goal with |- context [flushQueue ?q] =>
      pose proof (flushQueue_appends_one q) as [Hlen Hin];
      destruct (flushQueue q) as [p1 e1] end.
    cbn [fst snd] in *.
    match goal with |- context [appended (e1 ++ ?e2)] =>
      assert (He : appended (e1 ++ e2) = appended e1)
        by (rewrite PlayerFacts.appended_app;
            destruct (isFinalized p1), (queue p1), (sourceBuffer p1) as [[|] |],
              (mediaSource p1); cbn; now rewrite app_nil_r) end.
    rewrite He. split; [exact Hlen |].
    intros b Hb. destruct (Hin b Hb) as [_ Hs]. split; [exact Hs |].
    intros Hw. discriminate Hw.
  - cbn. split; [lia | intros b []].
Qed.

Lemma ends_stream_app (e1 e2 : list effect) :
  ends_stream (e1 ++ e2) = (ends_stream e1 || ends_stream e2)%bool.
Proof. unfold ends_stream. apply existsb_app. Qed.

Lemma flushQueue_never_ends (p : AudioPlayer) :
  ends_stream (snd (flushQueue p)) = false.
Proof.
  unfold Player.flushQueue.
  destruct (sourceBuffer p) as [[|] |], (mediaSource p); try reflexivity.
  destruct (queue p); reflexivity.
Qed.

(** X4.  [mediaSource.endOfStream()] is called by the ['updateend']
    listener only, and only when the player had been finalized, the
    queue is drained and the source buffer is idle.  In particular
    [finalize()] never ends the stream itself: when it runs after the
    last ['updateend'], the stream stays open. *)
Theorem endOfStream_only_after_drain (o : op) (p : AudioPlayer) :
  ends_stream (snd (exec o p)) = true ->
  o = EvUpdateEnd
  /\ isFinalized p = true
  /\ queue (fst (exec o p)) = []
  /\ sourceBuffer (fst (exec o p)) = Some false.
Proof.
  destruct o; cbn [Player.exec].
  - unfold Player.resetStream. cbn [snd].
    destruct (audioElement p), (sourceBuffer p) as [[|] |]; discriminate.
  - unfold Player.addChunk.
    destruct (String.eqb base64Audio "" || negb (mediaSource p))%bool;
      [discriminate |].
    destruct (atob base64Audio); [| discriminate].
    match goal with |- context [flushQueue ?q] =>
      pose proof (flushQueue_never_ends q) as Hn;
      destruct (flushQueue q) as [p1 e1] end.
    cbn [fst snd] in *. rewrite ends_stream_app, Hn.
    destruct (negb _ && _)%bool; discriminate.
  - unfold Player.finalize. rewrite flushQueue_never_ends. discriminate.
  - unfold Player.stop, Player.resetStream. cbn [snd].
    destruct (audioElement p), (sourceBuffer p) as [[|] |]; discriminate.
  - discriminate.
  - cbn. destruct (onComplete p); discriminate.
  - unfold on_sourceopen. destruct (mediaSource p && addSourceBuffer_ok)%bool;
      discriminate.
  - unfold on_updateend.
    match goal with |- context [flushQueue ?q] =>
      pose proof (flushQueue_never_ends q) as Hn;
      destruct (PlayerFacts.flushQueue_conserves appendBuffer_ok q)
        as [_ Hkeep];
      destruct (flushQueue q) as [p1 e1] end.
    cbn [fst snd] in *. rewrite ends_stream_app, Hn. cbn [orb].
    destruct Hkeep as [Hf _].
    destruct (isFinalized p1) eqn:Hfin; [| discriminate].
    destruct (queue p1); [| discriminate].
    destruct (sourceBuffer p1) as [[|] |]; try discriminate.
    intros _. repeat split. symmetry. exact Hf.
  - discriminate.
Qed.

Lemma flushQueue_onComplete (p : AudioPlayer) :
  onComplete (fst (flushQueue p)) = onComplete p.
Proof.
  unfold Player.flushQueue.
  destruct (sourceBuffer p) as [[|] |], (mediaSource p); try reflexivity.
  destruct (queue p); reflexivity.
Qed.

Lemma exec_onComplete (o : op) (p : AudioPlayer) :
  onComplete (fst (exec o p)) = (onComplete p || is_setOnComplete o)%bool.
Proof.
  destruct o; cbn [Player.exec is_setOnComplete]; rewrite ?orb_false_r.
  - reflexivity.
  - unfold Player.addChunk.
    destruct (String.eqb base64Audio "" || negb (mediaSource p))%bool;
      [reflexivity |].
    destruct (atob base64Audio); [| reflexivity].
    match goal with |- context [flushQueue ?q] =>
      pose proof (flushQueue_onComplete q) as Hc;
      destruct (flushQueue q) as [p1 e1] end.
    exact Hc.
  - unfold Player.finalize.
    match goal with |- context [flushQueue ?q] =>
      pose proof (flushQueue_onComplete q) as Hc end.
    exact Hc.
  - reflexivity.
  - cbn. now rewrite orb_true_r.
  - reflexivity.
  - unfold on_sourceopen. destruct (mediaSource p && addSourceBuffer_ok)%bool;
      reflexivity.
  - unfold on_updateend.
    match goal with |- context [flushQueue ?q] =>
      pose proof (flushQueue_onComplete q) as Hc;
      destruct (flushQueue q) as [p1 e1] end.
    exact Hc.
  - reflexivity.
Qed.

(** X5.  The completion callback stays registered: after any sequence
    of methods and listeners, a callback is registered iff one was
    before or [setOnComplete] occurs in the sequence; [resetStream()]
    and [stop()] do not remove it. *)
Theorem onComplete_stays_registered (ops : list op) (p : AudioPlayer) :
  onComplete (fst (run ops p))
  = (onComplete p || existsb is_setOnComplete ops)%bool.
Proof.
  revert p. induction ops as [| o rest IH]; intros p.
  - cbn. now rewrite orb_false_r.
  - rewrite player_run_cons. cbn [fst existsb].
    now rewrite IH, exec_onComplete, orb_assoc.
Qed.

End Browser.

Lemma queue_is_first_in_first_out_witness :
  let atob := fun s : string => Some s in
  let ok := fun _ : bytes => true in
  let ops := [EvSourceOpen; OpAddChunk "SUQz"; OpAddChunk "//uQ"; EvUpdateEnd;
              OpFinalize] in
  forallb (fun o => negb (is_reset o)) ops = true
  /\ appended (snd (PlayerRun.run atob ok true ops new_AudioPlayer))
     ++ queue (fst (PlayerRun.run atob ok true ops new_AudioPlayer))
     = queue new_AudioPlayer
       ++ flat_map (PlayerRun.pushes atob (mediaSource new_AudioPlayer)) ops.
Proof.
  cbv zeta. split; [reflexivity |].
  apply (queue_is_first_in_first_out (fun s => Some s) (fun _ => true) true).
  reflexivity.
Defined.

Lemma busy_buffer_gets_no_append_witness :
  let atob := fun s : string => Some s in
  let ok := fun _ : bytes => true in
  let ops := [OpAddChunk "SUQz"; EvPlayResolved; OpAddChunk "//uQ"; OpFinalize] in
  let p := mkPlayer true true (Some true) [] false true false in
  can_append p = false
  /\ forallb (fun o => negb (wakes o)) ops = true
  /\ appended (snd (PlayerRun.run atob ok true ops p)) = []
  /\ can_append (fst (PlayerRun.run atob ok true ops p)) = false.
Proof.
  cbv zeta. split; [reflexivity |]. split; [reflexivity |].
  apply (busy_buffer_gets_no_append (fun s => Some s) (fun _ => true) true);
    reflexivity.
Defined.

Lemma endOfStream_only_after_drain_witness :
  let atob := fun s : string => Some s in
  let ok := fun _ : bytes => true in
  let p := mkPlayer true true (Some true) [] true true true in
  ends_stream (snd (Player.exec atob ok true EvUpdateEnd p)) = true
  /\ EvUpdateEnd = EvUpdateEnd
  /\ isFinalized p = true
  /\ queue (fst (Player.exec atob ok true EvUpdateEnd p)) = []
  /\ sourceBuffer (fst (Player.exec atob ok true EvUpdateEnd p)) = Some false.
Proof.
  cbv zeta. split; [reflexivity |].
  apply (endOfStream_only_after_drain (fun s => Some s) (fun _ => true) true).
  reflexivity.
Defined.

End PlayerRunFacts.

Module AppFacts.
Import Player App.

Local Open Scope string_scope.
Local Open Scope list_scope.

Lemma texts_of_app (r : Role) (h : list ConversationMessage)
      (m : ConversationMessage) :
  texts_of r (h ++ [m])
  = texts_of r h ++ (if Role_eqb (role m) r then [text m] else []).
Proof.
  unfold texts_of. rewrite filter_app, map_app. cbn [filter].
  destruct (Role_eqb (role m) r); reflexivity.
Qed.

Lemma last_snoc (l : list string) (t d : string) : last (l ++ [t]) d = t.
Proof. apply last_last. Qed.

Lemma last_cons_default (b : string) (l : list string) (a : string) :
  last (b :: l) a = last l b.
Proof.
  revert b a. induction l as [| s l IH]; intros b a; [reflexivity |].
  change (last (b :: s :: l) a) with (last (s :: l) a).
  now rewrite (IH s a), (IH s b).
Qed.

Lemma adjacent_distinct_snoc (l : list string) (a t : string) :
  adjacent_distinct ((a :: l) ++ [t])
  = (adjacent_distinct (a :: l) && negb (String.eqb (last l a) t))%bool.
Proof.
  revert a. induction l as [| b l IH]; intros a.
  - cbn. now rewrite andb_true_r.
  - change ((a :: b :: l) ++ [t]) with (a :: ((b :: l) ++ [t])).
    change (adjacent_distinct (a :: (b :: l) ++ [t]))
      with (negb (String.eqb a b) && adjacent_distinct ((b :: l) ++ [t]))%bool.
    rewrite IH.
    change (adjacent_distinct (a :: b :: l))
      with (negb (String.eqb a b) && adjacent_distinct (b :: l))%bool.
    now rewrite andb_assoc, last_cons_default.
Qed.

Section Browser.
Variable atob : string -> option string.
Variable appendBuffer_ok : bytes -> bool.

Local Abbreviation onmessage := (App.onmessage atob appendBuffer_ok).
Local Abbreviation deliver := (App.deliver atob appendBuffer_ok).

Lemma deliver_cons (d : Delivery) (rest : list Delivery) (a : App) :
  deliver (d :: rest) a
  = (fst (deliver rest (fst (onmessage d a))),
     snd (onmessage d a) ++ snd (deliver rest (fst (onmessage d a)))).
Proof.
  cbn [App.deliver]. destruct (onmessage d a) as [a1 e1]. cbn [fst snd].
  destruct (deliver rest a1) as [a2 e2]. reflexivity.
Qed.

Lemma onmessage_user (t : string) (now : nat -> Z) (a : App) :
  deduplicated a ->
  String.eqb t (lastUserMessageRef a) = false ->
  deduplicated
    (setConversationHistory
       (fun prev => prev ++ [mkMessage (now 0%nat) user t (now 1%nat)])
       (set_lastUserMessageRef t (setPartialTranscript "" a))).
Proof.
  intros [Hu [Ha [Hlu Hla]]] Hne.
  unfold deduplicated. cbn [conversationHistory setConversationHistory
    set_lastUserMessageRef setPartialTranscript lastUserMessageRef
    lastAgentMessageRef].
  rewrite !texts_of_app. cbn [role text Role_eqb]. rewrite app_nil_r.
  repeat split.
  - change ("" :: texts_of user (conversationHistory a) ++ [t])
      with (("" :: texts_of user (conversationHistory a)) ++ [t]).
    rewrite adjacent_distinct_snoc, Hu, <- Hlu, String.eqb_sym, Hne. reflexivity.
  - exact Ha.
  - now rewrite last_snoc.
  - exact Hla.
Qed.

Lemma onmessage_agent (t : string) (now : nat -> Z) (a : App) :
  deduplicated a ->
  String.eqb t (lastAgentMessageRef a) = false ->
  deduplicated
    (setConversationHistory
       (fun prev => prev ++ [mkMessage (now 0%nat) agent t (now 1%nat)])
       (set_lastAgentMessageRef t a)).
Proof.
  intros [Hu [Ha [Hlu Hla]]] Hne.
  unfold deduplicated. cbn [conversationHistory setConversationHistory
    set_lastAgentMessageRef lastUserMessageRef lastAgentMessageRef].
  rewrite !texts_of_app. cbn [role text Role_eqb]. rewrite app_nil_r.
  repeat split.
  - exact Hu.
  - change ("" :: texts_of agent (conversationHistory a) ++ [t])
      with (("" :: texts_of agent (conversationHistory a)) ++ [t]).
    rewrite adjacent_distinct_snoc, Ha, <- Hla, String.eqb_sym, Hne. reflexivity.
  - exact Hlu.
  - now rewrite last_snoc.
Qed.

Lemma onmessage_deduplicated (d : Delivery) (a : App) :
  deduplicated a -> deduplicated (fst (onmessage d a)).
Proof.
  intros H. unfold App.onmessage.
  destruct (message d) as [sid | f t | t | t | data | t reason | t | | m |].
  - exact H.
  - destruct (match f, t with
              | SPEAKING, LISTENING => _ | _, _ => _ end) as [r e].
    destruct f, t; exact H.
  - exact H.
  - cbn [lastUserMessageRef setPartialTranscript].
    destruct (String.eqb t (lastUserMessageRef a)) eqn:E; cbn [negb fst].
    + exact H.
    + exact (onmessage_user t (Date_now d) a H E).
  - destruct (on_agent_audio_chunk _ _ _ _) as [r e]. exact H.
  - cbn [lastAgentMessageRef setError].
    destruct (String.eqb t (lastAgentMessageRef a)) eqn:E; cbn [negb fst].
    + exact H.
    + exact (onmessage_agent t (Date_now d) (setError _ a) H E).
  - destruct (String.eqb t (lastAgentMessageRef a)) eqn:E; cbn [negb fst].
    + exact H.
    + exact (onmessage_agent t (Date_now d) a H E).
  - exact H.
  - exact H.
  - exact H.
Qed.

(** X6.  The conversation never shows the same text twice in a row for
    one speaker.  Whatever messages the server sends to a freshly
    mounted component, two successive user messages of the history
    differ in text, and so do two successive agent messages (also when
    messages of the other speaker lie between them); the first message
    of a speaker is never the empty string; and each ref holds the text
    of the speaker's latest message. *)
Theorem history_is_deduplicated (ds : list Delivery) (player : option AudioPlayer) :
  let a := fst (deliver ds (initial player)) in
  adjacent_distinct ("" :: texts_of user (conversationHistory a)) = true
  /\ adjacent_distinct ("" :: texts_of agent (conversationHistory a)) = true
  /\ lastUserMessageRef a = last (texts_of user (conversationHistory a)) ""
  /\ lastAgentMessageRef a = last (texts_of agent (conversationHistory a)) "".
Proof.
  cbv zeta.
  assert (Hinit : deduplicated (initial player)) by (repeat split).
  revert Hinit. generalize (initial player).
  induction ds as [| d rest IH]; intros a Ha.
  - exact Ha.
  - rewrite deliver_cons. cbn [fst].
    apply IH, onmessage_deduplicated, Ha.
Qed.

Lemma onmessage_appends (d : Delivery) (a : App) :
  exists added,
    conversationHistory (fst (onmessage d a)) = conversationHistory a ++ added.
Proof.
  unfold App.onmessage.
  destruct (message d) as [sid | f t | t | t | data | t reason | t | | m |].
  - exists []. now rewrite app_nil_r.
  - destruct (match f, t with
              | SPEAKING, LISTENING => _ | _, _ => _ end) as [r e].
    exists []. rewrite app_nil_r. destruct f, t; reflexivity.
  - exists []. now rewrite app_nil_r.
  - destruct (negb _); [eexists; reflexivity |].
    exists []. now rewrite app_nil_r.
  - destruct (on_agent_audio_chunk _ _ _ _) as [r e].
    exists []. now rewrite app_nil_r.
  - destruct (negb _); [eexists; reflexivity |].
    exists []. now rewrite app_nil_r.
  - destruct (negb _); [eexists; reflexivity |].
    exists []. now rewrite app_nil_r.
  - exists []. now rewrite app_nil_r.
  - exists []. now rewrite app_nil_r.
  - exists []. now rewrite app_nil_r.
Qed.

Lemma deliver_appends (ds : list Delivery) (a : App) :
  exists added,
    conversationHistory (fst (deliver ds a)) = conversationHistory a ++ added.
Proof.
  revert a. induction ds as [| d rest IH]; intros a.
  - exists []. now rewrite app_nil_r.
  - rewrite deliver_cons. cbn [fst].
    destruct (onmessage_appends d a) as [x Hx].
    destruct (IH (fst (onmessage d a))) as [y Hy].
    exists (x ++ y). now rewrite Hy, Hx, app_assoc.
Qed.

(** X7.  Server messages only ever add to the conversation: after any
    sequence of messages the earlier history is an unchanged prefix of
    the new one.  Hence once four messages are shown, the visualizer
    stays in the header and the voice container stays collapsed. *)
Theorem history_only_grows (ds : list Delivery) (a : App) :
  let a' := fst (deliver ds a) in
  firstn (messageCount a) (conversationHistory a') = conversationHistory a
  /\ (messageCount a <= messageCount a')%nat
  /\ (isBallFloating a = true ->
      isBallFloating a' = true /\ getContainerHeight a' = "h-0 p-0").
Proof.
  cbv zeta. destruct (deliver_appends ds a) as [added H].
  unfold isBallFloating, getContainerHeight, messageCount. rewrite H.
  split; [| split].
  - rewrite firstn_app, firstn_all, Nat.sub_diag. cbn. apply app_nil_r.
  - rewrite length_app. lia.
  - rewrite length_app. intros Hf. apply Nat.leb_le in Hf.
    split; [apply Nat.leb_le; lia |].
    destruct (Nat.eqb_spec (List.length (conversationHistory a) + List.length added) 0);
      [lia |].
    destruct (Nat.eqb_spec (List.length (conversationHistory a) + List.length added) 1);
      [lia |].
    destruct (Nat.eqb_spec (List.length (conversationHistory a) + List.length added) 2);
      [lia |].
    destruct (Nat.eqb_spec (List.length (conversationHistory a) + List.length added) 3);
      [lia |].
    reflexivity.
Qed.

End Browser.

(** X8.  Whenever the start button is enabled, the status line shows the
    text of the current turn state: it cannot read "Connecting to voice
    pipeline...", "Upload a document to get started" or "Processing
    document..." while recording can be started. *)
Theorem enabled_start_shows_state_text
        (c : ConnectionStatus) (documents : list Document) (s : TurnState) :
  start_disabled c documents = false ->
  getStatusText c documents s = state_text s.
Proof.
  unfold start_disabled, getStatusText. intros H.
  apply orb_false_iff in H. destruct H as [H Hdoc].
  apply orb_false_iff in H. destruct H as [Hc Hlen].
  rewrite Hlen, Hdoc. destruct c; try discriminate. reflexivity.
Qed.

Lemma enabled_start_shows_state_text_witness :
  let documents := [mkDocument "d1" "notes.pdf" "failed";
                    mkDocument "d2" "paper.pdf" "indexed"] in
  start_disabled connected documents = false
  /\ getStatusText connected documents SPEAKING = state_text SPEAKING.
Proof.
  cbv zeta. split; [reflexivity |].
  apply enabled_start_shows_state_text. reflexivity.
Defined.

End AppFacts.

Module RecorderFacts.
Import Recorder.

Lemma recorder_run_cons (o : op) (rest : list op) (r : AudioRecorder) :
  run (o :: rest) r
  = (fst (run rest (fst (exec o r))),
     snd (exec o r) ++ snd (run rest (fst (exec o r)))).
Proof.
  cbn [run]. destruct (exec o r) as [r1 e1]. cbn [fst snd].
  destruct (run rest r1) as [r2 e2]. reflexivity.
Qed.

Lemma delivered_app (e1 e2 : list effect) :
  delivered (e1 ++ e2) = delivered e1 ++ delivered e2.
Proof. unfold delivered. apply flat_map_app. Qed.

Lemma exec_equipped (o : op) (r : AudioRecorder) :
  equipped r -> equipped (fst (exec o r)).
Proof.
  unfold equipped. intros H.
  destruct o as [cb | out | data |]; cbn [exec].
  - unfold start. destruct (isRecording r) eqn:E; cbn;
      [intros _; apply H; reflexivity | discriminate].
  - destruct out; cbn; intros Hr; try tauto;
      destruct (H Hr) as [? [? [? ?]]]; auto.
  - unfold onaudioprocess. destruct (negb (isRecording r)); [exact H |].
    destruct (onAudioData r); exact H.
  - unfold stop. destruct (isRecording r) eqn:E; cbn; [discriminate |].
    rewrite E. discriminate.
Qed.

Lemma run_equipped (ops : list op) (r : AudioRecorder) :
  equipped r -> equipped (fst (run ops r)).
Proof.
  revert r. induction ops as [| o rest IH]; intros r H; [exact H |].
  rewrite recorder_run_cons. cbn [fst]. apply IH, exec_equipped, H.
Qed.

(** X9.  A recorder that records holds all four browser resources, so
    [stop()] releases every one of them.  After any sequence of
    [start], settled promises, audio events and [stop] on a new
    recorder, if it is recording then [stop()] disconnects the
    processor and the source, stops the tracks of the stream, closes
    the audio context, and leaves every field [null]. *)
Theorem stop_releases_everything (ops : list op) :
  let r := fst (run ops new_AudioRecorder) in
  isRecording r = true ->
  stop r
  = (mkRecorder false false false false false (onAudioData r),
     [ProcessorDisconnect; SourceDisconnect; TracksStop; ContextClose]).
Proof.
  cbv zeta. intros Hr.
  assert (H : equipped (fst (run ops new_AudioRecorder)))
    by (apply run_equipped; intros E; discriminate E).
  destruct (H Hr) as [Hm [Hc [Hp Hs]]].
  unfold stop. now rewrite Hr, Hm, Hc, Hp, Hs.
Qed.

Lemma stop_releases_everything_witness :
  let ops := [OpStart 1%nat; EvSettled recording_started;
              EvAudioProcess [Pcm.Finite 0]; OpStop; OpStart 2%nat;
              EvSettled recording_started] in
  let r := fst (run ops new_AudioRecorder) in
  isRecording r = true
  /\ stop r
     = (mkRecorder false false false false false (onAudioData r),
        [ProcessorDisconnect; SourceDisconnect; TracksStop; ContextClose]).
Proof.
  cbv zeta. split; [reflexivity |].
  apply (stop_releases_everything
           [OpStart 1%nat; EvSettled recording_started;
            EvAudioProcess [Pcm.Finite 0]; OpStop; OpStart 2%nat;
            EvSettled recording_started]).
  reflexivity.
Defined.

Lemma exec_silent (o : op) (r : AudioRecorder) :
  isRecording r = false -> is_started o = false ->
  delivered (snd (exec o r)) = [] /\ isRecording (fst (exec o r)) = false.
Proof.
  intros Hr Ho. destruct o as [cb | out | data |]; cbn [exec].
  - unfold start. rewrite Hr. now split.
  - destruct out; try discriminate; now split.
  - unfold onaudioprocess. rewrite Hr. now split.
  - unfold stop. rewrite Hr. now split.
Qed.

(** X10.  No audio leaves a recorder that is not recording.  From a
    recorder with [isRecording] false, whatever audio events, [start]
    calls, failed starts and [stop] calls follow, the callback is
    never invoked until a [start] runs to its end. *)
Theorem nothing_delivered_when_not_recording
        (ops : list op) (r : AudioRecorder) :
  isRecording r = false ->
  forallb (fun o => negb (is_started o)) ops = true ->
  delivered (snd (run ops r)) = []
  /\ isRecording (fst (run ops r)) = false.
Proof.
  revert r. induction ops as [| o rest IH]; intros r Hr Hall.
  - now split.
  - cbn [forallb] in Hall. apply andb_true_iff in Hall. destruct Hall as [Ho Hrest].
    apply negb_true_iff in Ho.
    destruct (exec_silent o r Hr Ho) as [Hd Hr1].
    destruct (IH _ Hr1 Hrest) as [Hd' Hr'].
    rewrite recorder_run_cons. cbn [fst snd]. rewrite delivered_app, Hd, Hd'.
    now split.
Qed.

Lemma nothing_delivered_when_not_recording_witness :
  let r := fst (run [OpStart 1%nat; EvSettled recording_started; OpStop]
                    new_AudioRecorder) in
  let ops := [EvAudioProcess [Pcm.Finite 1]; OpStart 2%nat;
              EvAudioProcess [Pcm.Finite 0]; EvSettled connect_throws;
              EvAudioProcess [Pcm.NaN]] in
  isRecording r = false
  /\ forallb (fun o => negb (is_started o)) ops = true
  /\ delivered (snd (run ops r)) = []
  /\ isRecording (fst (run ops r)) = false.
Proof.
  cbv zeta. split; [reflexivity |]. split; [reflexivity |].
  apply nothing_delivered_when_not_recording; reflexivity.
Defined.

(** X11.  A [start] that obtains the microphone and then throws leaves
    the stream open for good: the promise is rejected with
    [mediaStream] assigned and [isRecording] false, so every later
    [stop()] returns at its guard and releases nothing. *)
Theorem failed_start_keeps_the_microphone
        (o : outcome) (n : nat) (r : AudioRecorder) :
  isRecording r = false ->
  fails_after_grant o = true ->
  let r' := fst (start_resumed o r) in
  mediaStream r' = true
  /\ snd (start_resumed o r) = [Throw]
  /\ run (repeat OpStop n) r' = (r', []).
Proof.
  intros Hr Ho. cbv zeta.
  assert (Hr' : isRecording (fst (start_resumed o r)) = false)
    by (destruct o; try discriminate; exact Hr).
  split; [destruct o; try discriminate; reflexivity |].
  split; [destruct o; try discriminate; reflexivity |].
  induction n as [| n IH]; [reflexivity |].
  cbn [repeat]. rewrite recorder_run_cons. cbn [exec].
  unfold stop. rewrite Hr'. cbn [negb fst snd]. now rewrite IH.
Qed.

Lemma failed_start_keeps_the_microphone_witness :
  let r := fst (start 1%nat new_AudioRecorder) in
  let r' := fst (start_resumed AudioContext_throws r) in
  isRecording r = false
  /\ fails_after_grant AudioContext_throws = true
  /\ mediaStream r' = true
  /\ snd (start_resumed AudioContext_throws r) = [Throw]
  /\ run (repeat OpStop 3) r' = (r', []).
Proof.
  cbv zeta. split; [reflexivity |]. split; [reflexivity |].
  apply (failed_start_keeps_the_microphone AudioContext_throws 3); reflexivity.
Defined.

End RecorderFacts.

Module PcmMoreFacts.
Import Pcm PcmView.

Lemma Qtrunc_le (a b : Q) : (a <= b)%Q -> Qtrunc a <= Qtrunc b.
Proof.
  destruct a as [n1 d1], b as [n2 d2]. unfold Qle, Qtrunc. cbn [Qnum Qden].
  intros H.
  destruct (Z_lt_le_dec n1 0) as [Hn1 | Hn1];
    destruct (Z_lt_le_dec n2 0) as [Hn2 | Hn2].
  - assert (E1 : n1 = - (- n1)) by lia. assert (E2 : n2 = - (- n2)) by lia.
    remember (- n1) as m1 eqn:Hm1. remember (- n2) as m2 eqn:Hm2.
    rewrite E1, E2.
    rewrite (Z.quot_opp_l m1), (Z.quot_opp_l m2) by lia.
    rewrite !Z.quot_div_nonneg by lia.
    apply Z.opp_le_mono. rewrite !Z.opp_involutive.
    apply Z.div_le_lower_bound; [lia |].
    pose proof (Z.mul_div_le m2 (Z.pos d2) ltac:(lia)). nia.
  - apply Z.le_trans with 0.
    + assert (E1 : n1 = - (- n1)) by lia.
      remember (- n1) as m1 eqn:Hm1. rewrite E1.
      rewrite (Z.quot_opp_l m1) by lia.
      pose proof (Z.quot_pos m1 (Z.pos d1)). lia.
    + apply Z.quot_pos; lia.
  - exfalso. nia.
  - rewrite !Z.quot_div_nonneg by lia.
    apply Z.div_le_lower_bound; [lia |].
    pose proof (Z.mul_div_le n1 (Z.pos d1) ltac:(lia)). nia.
Qed.

Lemma scaled_trunc_finite (x : Q) :
  scaled_trunc (Finite x)
  = let s := Qmax (-1 # 1) (Qmin (1 # 1) x) in
    if Qlt_le_dec s 0 then Qtrunc (s * 32768) else Qtrunc (s * 32767).
Proof. reflexivity. Qed.

(** X12.  The PCM encoding preserves the order of samples: a finite
    sample that is not greater than another is stored as a 16-bit
    value that is not greater; clamping never makes a loud sample wrap
    around to the opposite sign. *)
Theorem encode_sample_monotone (x y : Q) :
  (x <= y)%Q -> encode_sample (Finite x) <= encode_sample (Finite y).
Proof.
  intros Hxy.
  destruct (PcmFacts.encode_sample_saturates (Finite x)) as [-> _].
  destruct (PcmFacts.encode_sample_saturates (Finite y)) as [-> _].
  rewrite !scaled_trunc_finite. cbv zeta.
  assert (Hs : (Qmax (-1 # 1) (Qmin (1 # 1) x) <= Qmax (-1 # 1) (Qmin (1 # 1) y))%Q).
  { apply Q.max_le_compat; [apply Qle_refl |].
    apply Q.min_le_compat; [apply Qle_refl | exact Hxy]. }
  set (s := Qmax (-1 # 1) (Qmin (1 # 1) x)) in *.
  set (t := Qmax (-1 # 1) (Qmin (1 # 1) y)) in *.
  destruct (Qlt_le_dec s 0) as [Hs0 | Hs0]; destruct (Qlt_le_dec t 0) as [Ht0 | Ht0].
  - apply Qtrunc_le. apply Qmult_le_compat_r; [exact Hs | discriminate].
  - apply Z.le_trans with (Qtrunc 0).
    + apply Qtrunc_le.
      apply Qle_trans with (0 * 32768)%Q; [| discriminate].
      apply Qmult_le_compat_r; [now apply Qlt_le_weak | discriminate].
    + apply Qtrunc_le.
      apply Qle_trans with (0 * 32767)%Q; [discriminate |].
      apply Qmult_le_compat_r; [exact Ht0 | discriminate].
  - exfalso. apply (Qlt_irrefl 0).
    apply Qle_lt_trans with t; [| exact Ht0].
    now apply Qle_trans with s.
  - apply Qtrunc_le. apply Qmult_le_compat_r; [exact Hs | discriminate].
Qed.

Lemma encode_sample_monotone_witness :
  (-3 # 2 <= 1 # 4)%Q
  /\ encode_sample (Finite (-3 # 2)) <= encode_sample (Finite (1 # 4)).
Proof.
  split; [discriminate |].
  apply encode_sample_monotone. discriminate.
Defined.

Lemma Int16Array_of_bytes (values : list Z) :
  Forall (fun v => -32768 <= v <= 32767) values ->
  Int16Array_of (Uint8Array_of values) = values
  /\ List.length (Uint8Array_of values) = (2 * List.length values)%nat
  /\ Forall (fun b => 0 <= b < 256) (Uint8Array_of values).
Proof.
  induction 1 as [| v rest Hv _ [IH1 [IH2 IH3]]].
  - repeat split. constructor.
  - pose proof (PcmFacts.int16_bytes_decode v Hv) as Hd.
    unfold Uint8Array_of in *. cbn [flat_map].
    unfold int16_bytes in *. cbv zeta in *.
    destruct Hd as [Hlo [Hhi Hval]].
    cbn [app Int16Array_of List.length].
    rewrite Hval, IH1, IH2.
    split; [reflexivity |]. split; [lia |].
    constructor; [exact Hlo |]. constructor; [exact Hhi | exact IH3].
Qed.

Lemma int16Array_in_range (float32Array : list sample) :
  Forall (fun v => -32768 <= v <= 32767) (int16Array float32Array).
Proof.
  unfold int16Array. induction float32Array as [| x rest IH]; constructor.
  - destruct (PcmFacts.encode_sample_saturates x) as [_ [H _]]. exact H.
  - exact IH.
Qed.

(** X13.  The byte view loses nothing: the buffer handed to [btoa]
    holds two bytes per sample, each in [0, 255], low byte first, and
    reading the pairs back as 16-bit integers gives the stored values
    again. *)
Theorem Uint8Array_round_trip (float32Array : list sample) :
  Int16Array_of (Uint8Array_of (int16Array float32Array)) = int16Array float32Array
  /\ List.length (Uint8Array_of (int16Array float32Array))
     = (2 * List.length float32Array)%nat
  /\ Forall (fun b => 0 <= b < 256) (Uint8Array_of (int16Array float32Array)).
Proof.
  destruct (Int16Array_of_bytes _ (int16Array_in_range float32Array))
    as [H1 [H2 H3]].
  split; [exact H1 |]. split; [| exact H3].
  rewrite H2. unfold int16Array. now rewrite length_map.
Qed.

Lemma btoa_length_le (n : nat) (bytes : list Z) :
  (List.length bytes <= n)%nat ->
  String.length (btoa bytes) = (4 * ((List.length bytes + 2) / 3))%nat.
Proof.
  revert bytes. induction n as [n H] using (well_founded_induction lt_wf).
  intros bytes Hn.
  destruct bytes as [| a [| b [| c rest]]]; try reflexivity.
  cbn [btoa String.length List.length].
  rewrite (H (List.length rest)); [| cbn in Hn; lia | lia].
  replace (S (S (S (List.length rest))) + 2)%nat
    with (1 * 3 + (List.length rest + 2))%nat by lia.
  rewrite Nat.div_add_l by lia. lia.
Qed.

(** X14.  The payload of [n] samples has [4 * ceil(2n / 3)] characters:
    [float32ToInt16Base64] always produces padded base64 of the [2n]
    bytes, whatever the samples are. *)
Theorem float32ToInt16Base64_length (float32Array : list sample) :
  String.length (float32ToInt16Base64 float32Array)
  = (4 * ((2 * List.length float32Array + 2) / 3))%nat.
Proof.
  unfold float32ToInt16Base64.
  rewrite (btoa_length_le _ _ (le_n _)).
  destruct (Int16Array_of_bytes _ (int16Array_in_range float32Array))
    as [_ [-> _]].
  unfold int16Array. now rewrite length_map.
Qed.

End PcmMoreFacts.

Module SegmenterMoreFacts.
Import Segmenter.
Local Open Scope string_scope.
Local Open Scope list_scope.

Lemma str_in_char_app (c : ascii) (a b : string) :
  str_in (String c "") (a ++ b)
  = (str_in (String c "") a || str_in (String c "") b)%bool.
Proof.
  induction a as [| x a IH].
  - cbn [append]. destruct b; reflexivity.
  - cbn [append str_in String.prefix]. rewrite IH.
    assert (P : forall s, String.prefix "" s = true) by (intros []; reflexivity).
    destruct (ascii_dec c x); cbn; rewrite ?P; reflexivity.
Qed.

Lemma any_terminator_app (a b : string) :
  any_terminator (a ++ b) = (any_terminator a || any_terminator b)%bool.
Proof.
  unfold any_terminator. cbn [existsb]. rewrite !str_in_char_app.
  destruct (str_in "." a), (str_in "?" a), (str_in "!" a),
    (str_in "." b), (str_in "?" b), (str_in "!" b); reflexivity.
Qed.

Lemma join_app (l1 l2 : list string) :
  join (l1 ++ l2) = (join l1 ++ join l2)%string.
Proof.
  induction l1 as [| t l1 IH]; [reflexivity |].
  cbn [app]. now rewrite !RunLlmFacts.join_cons, IH, RunLlmFacts.append_assoc.
Qed.

Lemma stream_sentences_from_unmarked (tokens buffer : list string) :
  any_terminator (join (buffer ++ tokens)) = false ->
  stream_sentences_from buffer tokens = ([], buffer ++ tokens).
Proof.
  revert buffer. induction tokens as [| token rest IH]; intros buffer H.
  - now rewrite app_nil_r.
  - cbn [stream_sentences_from].
    replace (buffer ++ token :: rest) with ((buffer ++ [token]) ++ rest) in *
      by now rewrite <- app_assoc.
    assert (Hpre : any_terminator (join (buffer ++ [token])) = false).
    { rewrite join_app, any_terminator_app in H.
      now apply orb_false_iff in H. }
    rewrite Hpre. now apply IH.
Qed.

Lemma stream_sentences_nil_iff (tokens : list string) :
  stream_sentences tokens = [] <-> any_terminator (join tokens) = false.
Proof.
  split.
  - intros Hnil.
    destruct (SegmenterFacts.stream_sentences_from_groups tokens [] eq_refl)
      as [groups [Hcat [Hout [_ Hrest]]]].
    unfold stream_sentences in Hnil. rewrite Hout in Hnil.
    destruct groups; [| discriminate].
    cbn in Hcat. now rewrite <- Hcat.
  - intros H. unfold stream_sentences.
    now rewrite (stream_sentences_from_unmarked tokens [] H).
Qed.

(** X15.  [stream_sentences] yields nothing exactly when the whole
    response holds none of ['.'], ['?'], ['!']; such a response stays
    in the buffer to the end of the stream and is never yielded, since
    the loop has no flush. *)
Theorem unterminated_response_is_never_yielded (tokens : list string) :
  (stream_sentences tokens = [] <-> any_terminator (join tokens) = false)
  /\ (any_terminator (join tokens) = false ->
      stream_sentences_from [] tokens = ([], tokens)).
Proof.
  split; [apply stream_sentences_nil_iff |].
  intros H. exact (stream_sentences_from_unmarked tokens [] H).
Qed.

End SegmenterMoreFacts.

Module RunLlmMoreFacts.
Import Segmenter RunLlm.
Local Open Scope string_scope.
Local Open Scope list_scope.

Lemma stream_tokens_state (tokens : list string) (full : string) (st : llm_state) :
  snd (fst (stream_tokens tokens full st))
  = mkLlm (llm_buffer st ++ tokens)
          (first_sentence_ready st
           || (match tokens with [] => false | _ => true end
               && any_terminator (join (llm_buffer st ++ tokens))))%bool.
Proof.
  revert full st. induction tokens as [| t rest IH]; intros full st.
  - cbn. rewrite app_nil_r, orb_false_r. now destruct st.
  - cbn [stream_tokens].
    specialize (IH (full ++ t)%string (on_token t st)).
    destruct (stream_tokens rest (full ++ t)%string (on_token t st))
      as [[full' st'] evs].
    cbn [fst snd] in *. rewrite IH. clear IH.
    cbn [on_token llm_buffer first_sentence_ready andb].
    assert (E : (llm_buffer st ++ [t]) ++ rest = llm_buffer st ++ t :: rest)
      by now rewrite <- app_assoc.
    rewrite E. f_equal.
    destruct (first_sentence_ready st); [reflexivity |]. cbn [orb].
    destruct rest as [| t' rest']; [now rewrite orb_false_r |].
    cbn [andb]. rewrite <- E.
    rewrite (SegmenterMoreFacts.join_app (llm_buffer st ++ [t])),
      SegmenterMoreFacts.any_terminator_app.
    now destruct (any_terminator (join (llm_buffer st ++ [t]))).
Qed.

(** X16.  The flag of [on_token] and the segmenter agree: when
    [_run_llm] ends, cancelled or not, [llm_buffer] holds the streamed
    tokens, and [first_sentence_ready] is set exactly when their text
    holds a sentence mark, that is exactly when [stream_sentences]
    would have yielded a sentence on the same tokens. *)
Theorem first_sentence_ready_iff_sentence (tokens : list string) (cancelled : bool) :
  llm_buffer (fst (_run_llm tokens cancelled)) = tokens
  /\ first_sentence_ready (fst (_run_llm tokens cancelled))
     = any_terminator (join tokens)
  /\ first_sentence_ready (fst (_run_llm tokens cancelled))
     = match stream_sentences tokens with [] => false | _ :: _ => true end.
Proof.
  assert (Hst : fst (_run_llm tokens cancelled)
                = mkLlm tokens (any_terminator (join tokens))).
  { unfold _run_llm, generate_response.
    pose proof (stream_tokens_state tokens "" (mkLlm [] false)) as H.
    destruct (stream_tokens tokens "" (mkLlm [] false)) as [[full st] evs].
    cbn [fst snd llm_buffer first_sentence_ready app orb] in H.
    destruct cancelled; cbn [fst]; rewrite H; destruct tokens; reflexivity. }
  rewrite Hst. cbn [llm_buffer first_sentence_ready].
  split; [reflexivity |]. split; [reflexivity |].
  pose proof (SegmenterMoreFacts.stream_sentences_nil_iff tokens) as Hiff.
  destruct (stream_sentences tokens) eqn:E.
  - now apply Hiff.
  - destruct (any_terminator (join tokens)) eqn:A; [reflexivity |].
    destruct Hiff as [_ Hback]. discriminate (Hback eq_refl).
Qed.

(** X17.  A cancelled generation never reaches the TTS: when
    [generate_response] returns [None], [_run_llm] returns after the
    tokens and the end of the call, without any [generate_audio]
    request. *)
Theorem cancelled_run_llm_requests_no_tts (tokens : list string) :
  snd (_run_llm tokens true) = map TokenArrived tokens ++ [LlmComplete]
  /\ tts_requests (snd (_run_llm tokens true)) = [].
Proof.
  assert (H : snd (_run_llm tokens true) = map TokenArrived tokens ++ [LlmComplete]).
  { unfold _run_llm, generate_response.
    destruct (RunLlmFacts.stream_tokens_trace tokens "" (mkLlm [] false))
      as [_ Hevs].
    destruct (stream_tokens tokens "" (mkLlm [] false)) as [[full st] evs].
    cbn [fst snd] in *. now rewrite Hevs. }
  rewrite H. split; [reflexivity |].
  now rewrite RunLlmFacts.tts_requests_tokens.
Qed.

End RunLlmMoreFacts.

Module DebounceMoreFacts.
Import Debounce.

Lemma rate_above_threshold (k : nat) :
  (k <= 10)%nat ->
  Qlt_bool (30 # 100) (inject_Z (Z.of_nat k) / 10) = (4 <=? k)%nat
  /\ Qlt_bool (inject_Z (Z.of_nat k) / 10) (15 # 100) = (k <=? 1)%nat.
Proof.
  intros Hk.
  do 11 (destruct k as [| k]; [split; reflexivity |]). lia.
Qed.

(** X19.  [on_turn_complete] depends on the number [k] of interrupted
    turns among the last ten only: with [k >= 4] the debounce grows by
    100 ms up to 1200 ms, with [k <= 1] it shrinks by 50 ms down to
    400 ms, with [k] of 2 or 3 it is left alone.  A debounce within
    [400, 1200] stays there, and the recorded turns are not changed. *)
Theorem on_turn_complete_by_count (self : TurnController) :
  let k := List.length (filter was_interrupted (get_last_10_turns self)) in
  let d := silence_debounce self in
  let d' := silence_debounce (on_turn_complete self) in
  (k <= 10)%nat
  /\ d' = (if (4 <=? k)%nat then Z.min (d + 100) 1200
           else if (k <=? 1)%nat then Z.max (d - 50) 400
           else d)
  /\ (400 <= d <= 1200 -> 400 <= d' <= 1200)
  /\ turns (on_turn_complete self) = turns self.
Proof.
  cbv zeta.
  assert (Hk : (List.length (filter was_interrupted (get_last_10_turns self)) <= 10)%nat).
  { pose proof (DebounceFacts.get_last_10_turns_length self).
    pose proof (filter_length_le was_interrupted (get_last_10_turns self)). lia. }
  split; [exact Hk |].
  unfold on_turn_complete, adjust, cancel_rate. cbn [silence_debounce turns].
  destruct (rate_above_threshold _ Hk) as [-> ->].
  split; [reflexivity |]. split; [| reflexivity].
  intros Hd.
  destruct (4 <=? _)%nat; [lia |].
  destruct (_ <=? 1)%nat; lia.
Qed.

End DebounceMoreFacts.

Module InterruptMoreFacts.
Import Interrupt.

(** X20.  Repeating [handle_interrupt] changes nothing: any number of
    further calls after the first leaves the controller as the first
    call left it, so one barge-in sends a single [FinishUtterance]. *)
Theorem handle_interrupt_idempotent (n : nat) (self : TurnController) :
  Nat.iter (S n) handle_interrupt self = handle_interrupt self.
Proof.
  induction n as [| n IH]; [reflexivity |].
  change (Nat.iter (S (S n)) handle_interrupt self)
    with (handle_interrupt (Nat.iter (S n) handle_interrupt self)).
  rewrite IH. unfold handle_interrupt at 1.
  destruct (current_state (handle_interrupt self)) eqn:E; try reflexivity.
  exfalso. unfold handle_interrupt in E.
  destruct (current_state self) eqn:E'; try congruence.
  unfold send_finish_utterance in E. cbn in E.
  destruct (deepgram_client self); discriminate.
Qed.

(** X21.  The fix of [handle_interrupt] only adds the finalization:
    the handler before the fix and the fixed one agree on the state,
    the cancel event and the flag of the turn, and the handler before
    the fix never touches the Deepgram client, so no finalization is
    forced by it. *)
Theorem fix_only_adds_finish_utterance (self : TurnController) :
  current_state (handle_interrupt self)
  = current_state (InterruptBug.handle_interrupt self)
  /\ cancel_event (handle_interrupt self)
     = cancel_event (InterruptBug.handle_interrupt self)
  /\ turn_was_interrupted (handle_interrupt self)
     = turn_was_interrupted (InterruptBug.handle_interrupt self)
  /\ deepgram_client (InterruptBug.handle_interrupt self) = deepgram_client self
  /\ finalize_forced self (InterruptBug.handle_interrupt self) = false.
Proof.
  unfold handle_interrupt, InterruptBug.handle_interrupt, finalize_forced,
    send_finish_utterance, transition_to, set_cancel_event.
  destruct (current_state self) eqn:E; cbn;
    destruct (deepgram_client self) as [c |] eqn:D; cbn; rewrite ?E, ?D;
    repeat split; try reflexivity; apply Nat.ltb_irrefl.
Qed.

End InterruptMoreFacts.

Module DebugPanelFacts.
Import DebugPanel.

Lemma shown_firstn {A : Type} (logs : list A) :
  shown logs = firstn 50 (rev logs).
Proof.
  unfold shown, slice_last_50.
  rewrite <- (rev_involutive logs) at 2.
  rewrite skipn_rev, rev_involutive, length_rev.
  destruct (Nat.le_gt_cases (List.length logs) 50) as [H | H].
  - replace (List.length logs - (List.length logs - 50))%nat
      with (List.length logs) by lia.
    rewrite firstn_all2 by (rewrite length_rev; lia).
    symmetry. apply firstn_all2. rewrite length_rev. lia.
  - f_equal. lia.
Qed.

(** X22.  The debug panel lists at most fifty entries, newest first:
    after [addDebugLog] the new entry is at the top, followed by the
    first forty-nine of the entries listed before. *)
Theorem newest_log_is_shown_first (now : Z) (type content : string) (a : App.App) :
  shown (App.debugLogs (App.addDebugLog now type content a))
  = App.mkLog now type content :: firstn 49 (shown (App.debugLogs a))
  /\ (List.length (shown (App.debugLogs a)) <= 50)%nat.
Proof.
  rewrite !shown_firstn. cbn [App.addDebugLog App.debugLogs].
  rewrite rev_app_distr. cbn [rev app].
  split.
  - rewrite firstn_firstn.
    change (Nat.min 49 50) with 49%nat. change 50%nat with (S 49).
    apply firstn_cons.
  - rewrite length_firstn. lia.
Qed.

End DebugPanelFacts.

Module UploadFacts.
Import Upload.

Local Open Scope string_scope.
Local Open Scope list_scope.

Lemma lastIndexOf_lower_bound (c : ascii) (s : string) : -1 <= lastIndexOf c s.
Proof.
  induction s as [| x rest IH]; cbn [lastIndexOf]; [lia |].
  destruct (0 <=? lastIndexOf c rest)%Z eqn:E; [apply Z.leb_le in E; lia |].
  destruct (Ascii.eqb x c); lia.
Qed.

Lemma lastIndexOf_absent (c : ascii) (s : string) :
  lastIndexOf c s < 0 <-> has_char c s = false.
Proof.
  induction s as [| x rest IH]; cbn [lastIndexOf has_char].
  - split; [reflexivity | lia].
  - pose proof (lastIndexOf_lower_bound c rest) as Hlb.
    destruct (0 <=? lastIndexOf c rest)%Z eqn:E.
    + apply Z.leb_le in E. split; [lia |].
      intros H. apply orb_false_iff in H. destruct H as [_ H].
      apply IH in H. lia.
    + apply Z.leb_gt in E. apply IH in E. rewrite E, orb_false_r.
      destruct (Ascii.eqb x c); split; intros; try lia; try reflexivity;
        discriminate.
Qed.

Lemma lastIndexOf_split (c : ascii) (s : string) :
  0 <= lastIndexOf c s ->
  exists stem ext,
    s = (stem ++ String c ext)%string
    /\ has_char c ext = false
    /\ lastIndexOf c s = Z.of_nat (String.length stem).
Proof.
  induction s as [| x rest IH]; cbn [lastIndexOf]; [lia |].
  destruct (0 <=? lastIndexOf c rest)%Z eqn:E.
  - apply Z.leb_le in E. intros _.
    destruct (IH E) as [stem [ext [Hs [Hext Hlen]]]].
    exists (String x stem), ext. cbn [append String.length].
    split; [now rewrite Hs |]. split; [exact Hext | lia].
  - apply Z.leb_gt in E. destruct (Ascii.eqb_spec x c) as [-> | Hne]; [| lia].
    intros _. exists "", rest. cbn. repeat split.
    now apply lastIndexOf_absent.
Qed.

Lemma lastIndexOf_app (c : ascii) (stem ext : string) :
  has_char c ext = false ->
  lastIndexOf c (stem ++ String c ext) = Z.of_nat (String.length stem).
Proof.
  intros Hext. induction stem as [| x stem IH].
  - cbn [append lastIndexOf String.length].
    apply lastIndexOf_absent in Hext.
    destruct (0 <=? lastIndexOf c ext)%Z eqn:E; [apply Z.leb_le in E; lia |].
    now rewrite Ascii.eqb_refl.
  - cbn [append lastIndexOf String.length]. rewrite IH.
    destruct (0 <=? Z.of_nat (String.length stem))%Z eqn:E;
      [lia | apply Z.leb_gt in E; lia].
Qed.

Lemma drop_app (stem rest : string) :
  drop (String.length stem) (stem ++ rest) = rest.
Proof. induction stem as [| x stem IH]; [now destruct rest | exact IH]. Qed.

Lemma lower_ascii_dot (c : ascii) :
  Ascii.eqb (lower_ascii c) "." = Ascii.eqb c ".".
Proof. destruct c as [[] [] [] [] [] [] [] []]; reflexivity. Qed.

Lemma has_char_toLowerCase (s : string) :
  has_char "." (toLowerCase s) = has_char "." s.
Proof.
  induction s as [| x rest IH]; [reflexivity |].
  cbn [toLowerCase has_char]. now rewrite lower_ascii_dot, IH.
Qed.

Lemma includes_validExtensions (s : string) :
  includes validExtensions s = true
  <-> exists e, s = String "." e /\ In e ["pdf"; "txt"; "md"].
Proof.
  unfold includes, validExtensions. cbn [existsb]. split.
  - intros H.
    destruct (String.eqb_spec s ".pdf") as [E | _];
      [exists "pdf"; split; [exact E | cbn; auto] |].
    destruct (String.eqb_spec s ".txt") as [E | _];
      [exists "txt"; split; [exact E | cbn; auto] |].
    destruct (String.eqb_spec s ".md") as [E | _];
      [exists "md"; split; [exact E | cbn; auto] |].
    discriminate.
  - intros [e [-> [<- | [<- | [<- | []]]]]]; reflexivity.
Qed.

Lemma extension_accepted (name : string) :
  includes validExtensions (extension name) = true
  <-> exists stem ext,
        name = (stem ++ "." ++ ext)%string
        /\ has_char "." ext = false
        /\ In (toLowerCase ext) ["pdf"; "txt"; "md"].
Proof.
  rewrite includes_validExtensions. unfold extension, substring. split.
  - intros [e [He Hin]].
    destruct (Z_lt_le_dec (lastIndexOf "." name) 0) as [Hneg | Hpos].
    + exfalso.
      replace (Z.to_nat (lastIndexOf "." name)) with 0%nat in He by lia.
      cbn [drop] in He.
      apply lastIndexOf_absent in Hneg.
      rewrite <- has_char_toLowerCase, He in Hneg. discriminate.
    + destruct (lastIndexOf_split "." name Hpos) as [stem [ext [Hn [Hext Hlen]]]].
      exists stem, ext. split; [exact Hn |]. split; [exact Hext |].
      rewrite Hlen, Nat2Z.id, Hn, drop_app in He.
      cbn [toLowerCase] in He. injection He as He. now rewrite He.
  - intros [stem [ext [-> [Hext Hin]]]].
    exists (toLowerCase ext). split; [| exact Hin].
    cbn [append]. rewrite (lastIndexOf_app "." stem ext Hext), Nat2Z.id, drop_app.
    reflexivity.
Qed.

(** X23.  A chosen file is accepted exactly when it is at most
    10 MiB and its name ends in a dot followed by [pdf], [txt] or [md]
    in any mix of upper and lower case (the text after the last dot);
    a name without a dot is always refused.  The sidebar starts the
    upload exactly when, in addition, the session id is not empty. *)
Theorem upload_accepts_pdf_txt_md (c : App.ConnectionStatus)
        (sessionId name : string) (size : Z) :
  (validate name size = None
   <-> size <= 10485760
       /\ exists stem ext,
            name = (stem ++ "." ++ ext)%string
            /\ has_char "." ext = false
            /\ In (toLowerCase ext) ["pdf"; "txt"; "md"])
  /\ (snd (handleFileSelect c sessionId name size) = true
      <-> sessionId <> "" /\ validate name size = None)
  /\ (has_char "." name = false -> validate name size <> None).
Proof.
  assert (Hval : validate name size = None
                 <-> size <= 10485760
                     /\ includes validExtensions (extension name) = true).
  { unfold validate.
    destruct (includes validExtensions (extension name)); cbn [negb].
    - change (10 * 1024 * 1024) with 10485760.
      destruct (10485760 <? size)%Z eqn:E.
      + apply Z.ltb_lt in E. split; [discriminate | lia].
      + apply Z.ltb_ge in E. split; auto.
    - split; [discriminate | intros [_ H]; discriminate]. }
  split; [| split].
  - rewrite Hval, extension_accepted. reflexivity.
  - unfold handleFileSelect.
    destruct (String.eqb_spec sessionId "") as [-> | Hne].
    + cbn [snd]. split; [discriminate | intros [H _]; now elim H].
    + destruct (validate name size); cbn [snd].
      * split; [discriminate | intros [_ H]; discriminate].
      * split; auto.
  - intros Hdot Hnone. apply Hval in Hnone. destruct Hnone as [_ Hinc].
    apply extension_accepted in Hinc.
    destruct Hinc as [stem [ext [Hn _]]]. subst name.
    clear -Hdot. induction stem as [| x stem IH].
    + cbn in Hdot. discriminate.
    + cbn [append has_char] in Hdot. apply orb_false_iff in Hdot.
      destruct Hdot as [_ Hdot]. now apply IH.
Qed.

End UploadFacts.

Module RunLlmStreamingFacts.
Import Segmenter Integration RunLlmStreaming.
Local Open Scope string_scope.
Local Open Scope list_scope.





End RunLlmStreamingFacts.
